(** * A shallow embedding of [encoding/binary] (BinaryReader.ReadInterface)
    and of the expression sublanguage used in its struct tags. *)

From Stdlib Require Import ZArith List String Ascii Bool Lia.
Import ListNotations.

Open Scope Z_scope.
Set Warnings "-register-all".

(** ** Go machine integers *)

(** [int] and [int64] are 64-bit two's complement; every arithmetic step of
    the Go code wraps. *)
Definition wrap64 (z : Z) : Z := (z + 2 ^ 63) mod 2 ^ 64 - 2 ^ 63.

Definition MaxInt32 : Z := 2 ^ 31 - 1.

(** Conversion of a [w]-bit unsigned pattern to the signed type of that width
    ([int8(x)], [int16(x)], ...). *)
Definition to_signed (w : Z) (z : Z) : Z :=
  if z <? 2 ^ (w - 1) then z else z - 2 ^ w.

(** ** Expression sublanguage: abstract syntax (expression.peg) *)

Inductive binop :=
| ShiftRight | ShiftLeft | AndNot | Mask | Add | Sub | Mul
| Eq | Lt | Gt | Le | Ge | Ne.

Inductive expr :=
| EConst (z : Z)
| EPath (ids : list string)
| EBin (o : binop) (l r : expr).

(** ** Expression sublanguage: the PEG of expression.peg

    Each rule is a function from the remaining input to the value it
    recognises and the input left after it, [None] when the rule fails.
    PEG repetition is greedy and ordered choice commits to its first
    successful alternative. *)
Module Peg.

Definition chars := list ascii.

Definition code (c : ascii) : nat := nat_of_ascii c.

Definition in_range (lo hi : ascii) (c : ascii) : bool :=
  (code lo <=? code c)%nat && (code c <=? code hi)%nat.

(** [Spacing <- [ \t\n\r]+] *)
Definition is_space (c : ascii) : bool :=
  (c =? " ")%char || (c =? "009")%char || (c =? "010")%char || (c =? "013")%char.

Definition is_upper := in_range "A" "Z".
Definition is_digit := in_range "0" "9".
Definition is_hex (c : ascii) : bool :=
  in_range "a" "f" c || in_range "A" "F" c || is_digit c.
(** [[_A-Za-z0-9]] *)
Definition is_ident_char (c : ascii) : bool :=
  (c =? "_")%char || is_upper c || in_range "a" "z" c || is_digit c.

Fixpoint take_while (p : ascii -> bool) (s : chars) : chars * chars :=
  match s with
  | [] => ([], [])
  | c :: r => if p c then let (a, b) := take_while p r in (c :: a, b) else ([], s)
  end.

(** [Spacing?] *)
Definition spacing (s : chars) : chars := snd (take_while is_space s).

(** [Identifier <- [A-Z] [_A-Za-z0-9]*] *)
Definition identifier (s : chars) : option (string * chars) :=
  match s with
  | c :: r =>
      if is_upper c then
        let (a, b) := take_while is_ident_char r in Some (string_of_list_ascii (c :: a), b)
      else None
  | [] => None
  end.

(** [('.' Identifier)*]; the fuel is the length of the input, each round
    consumes at least two characters. *)
Fixpoint dot_rest (fuel : nat) (s : chars) : list string * chars :=
  match fuel with
  | O => ([], s)
  | S f =>
      match s with
      | "."%char :: r =>
          match identifier r with
          | Some (id, r') => let (ids, r'') := dot_rest f r' in (id :: ids, r'')
          | None => ([], s)
          end
      | _ => ([], s)
      end
  end.

(** [DotIdentifier <- Identifier ('.' Identifier)*] *)
Definition dot_identifier (s : chars) : option (expr * chars) :=
  match identifier s with
  | Some (id, r) => let (ids, r') := dot_rest (List.length r) r in Some (EPath (id :: ids), r')
  | None => None
  end.

Definition digit_val (c : ascii) : Z :=
  if is_digit c then Z.of_nat (code c - code "0")
  else if in_range "a" "f" c then Z.of_nat (code c - code "a" + 10)
  else Z.of_nat (code c - code "A" + 10).

Definition digits_val (base : Z) (ds : chars) : Z :=
  fold_left (fun acc c => acc * base + digit_val c) ds 0.

(** [Constant <- ("0x" [a-fA-F0-9]+) / [0-9]+] *)
Definition constant (s : chars) : option (expr * chars) :=
  let hex :=
    match s with
    | "0"%char :: "x"%char :: r =>
        match take_while is_hex r with
        | ([], _) => None
        | (h, r') => Some (EConst (wrap64 (digits_val 16 h)), r')
        end
    | _ => None
    end in
  match hex with
  | Some res => Some res
  | None =>
      match take_while is_digit s with
      | ([], _) => None
      | (d, r') => Some (EConst (wrap64 (digits_val 10 d)), r')
      end
  end.

(** [Grouping <- Spacing? ('(' Op ')' / Constant / DotIdentifier) Spacing?],
    given the parser of [Op]. *)
Definition grouping (op : chars -> option (expr * chars)) (s : chars)
  : option (expr * chars) :=
  let s1 := spacing s in
  let paren :=
    match s1 with
    | c :: r =>
        if (c =? "(")%char then
          match op r with
          | Some (e, d :: r2) => if (d =? ")")%char then Some (e, r2) else None
          | _ => None
          end
        else None
    | [] => None
    end in
  match paren with
  | Some (e, r) => Some (e, spacing r)
  | None =>
      match constant s1 with
      | Some (e, r) => Some (e, spacing r)
      | None =>
          match dot_identifier s1 with
          | Some (e, r) => Some (e, spacing r)
          | None => None
          end
      end
  end.

Fixpoint strip_prefix (p s : chars) : option chars :=
  match p, s with
  | [], _ => Some s
  | c :: p', d :: s' => if (c =? d)%char then strip_prefix p' s' else None
  | _ :: _, [] => None
  end.

(** [Op <- ShiftRight / ShiftLeft / AndNot / Mask / Add / Sub / Mul / BooleanOp]
    and [BooleanOp <- Eq / Lt / Gt / Le / Ge / Ne], each alternative being
    [Grouping <token> Grouping]. *)
Definition op_table : list (binop * chars) :=
  [ (ShiftRight, [">"; ">"]%char); (ShiftLeft, ["<"; "<"]%char);
    (AndNot, ["&"; "^"]%char); (Mask, ["&"]%char); (Add, ["+"]%char);
    (Sub, ["-"]%char); (Mul, ["*"]%char);
    (Eq, ["="; "="]%char); (Lt, ["<"]%char); (Gt, [">"]%char);
    (Le, ["<"; "="]%char); (Ge, [">"; "="]%char); (Ne, ["!"; "="]%char) ].

Fixpoint try_ops (g : chars -> option (expr * chars)) (ops : list (binop * chars))
  (s : chars) : option (expr * chars) :=
  match ops with
  | [] => None
  | (o, tok) :: rest =>
      match g s with
      | Some (l, r1) =>
          match strip_prefix tok r1 with
          | Some r2 =>
              match g r2 with
              | Some (r, r3) => Some (EBin o l r, r3)
              | None => try_ops g rest s
              end
          | None => try_ops g rest s
          end
      | None => try_ops g rest s
      end
  end.

(** [Op]; the fuel bounds the nesting of parentheses. *)
Fixpoint op (fuel : nat) (s : chars) : option (expr * chars) :=
  match fuel with
  | O => None
  | S f => try_ops (grouping (op f)) op_table s
  end.

(** [Expression <- (Op / Grouping) EndOfFile] *)
Definition expression (s : chars) : option expr :=
  let fuel := S (List.length s) in
  let first :=
    match op fuel s with
    | Some res => Some res
    | None => grouping (op fuel) s
    end in
  match first with
  | Some (e, []) => Some e
  | _ => None
  end.

End Peg.

(** [EXPRESSION.Parse] followed by [RootNode]: [None] is a parse error. *)
Definition parse (s : string) : option expr := Peg.expression (list_ascii_of_string s).


(** ** The byte source

    [BinaryReader.Reader] is an [io.ReadSeeker]; it is modelled as a
    [bytes.Reader] over [src] at offset [pos].  Every call the decoder issues on
    it is recorded in [trace]. *)

Inductive event :=
| EvRead (n : Z)      (* Reader.Read with a buffer of n bytes *)
| EvSeek (off : Z).   (* Reader.Seek(off, 1) *)

Inductive byte_order := LittleEndian | BigEndian.

Record st := mkst {
  src : list Z;               (* bytes, each in 0..255 *)
  pos : Z;
  endianess : byte_order;
  trace : list event
}.

(** ** Go values and types *)

Inductive value :=
| VBool (b : bool)
| VInt (z : Z)
| VUint (z : Z)
| VFloat (width : Z) (bits : Z)      (* a float kept as its bit pattern *)
| VString (s : list Z)
| VArray (vs : list value)
| VSlice (vs : list value)
| VStruct (vs : list value)
| VOther.

(** The scalar kinds of [reflect.Kind] that ReadInterface handles. *)
Inductive bkind :=
| BBool | BInt | BInt8 | BInt16 | BInt32 | BInt64
| BUint | BUint8 | BUint16 | BUint32 | BUint64 | BFloat32 | BFloat64.

Inductive kind :=
| KBasic (b : bkind)
| KArray | KSlice | KString | KStruct
| KOther (name : string).

Inductive err :=
| ErrNotPointer (k : kind)          (* "Expected a pointer not %s" *)
| ErrEOF                            (* io.EOF from the byte source *)
| ErrShortRead                      (* "Didn't read the expected number of bytes" *)
| ErrNegativePosition               (* bytes.Reader.Seek: negative position *)
| ErrParse (tag : string)           (* EXPRESSION.Error() *)
| ErrUnresolved                     (* expression.Eval error *)
| ErrSliceLength                    (* "SliceHeader require a known length" *)
| ErrUnknownType (k : kind)         (* "Don't know how to read type %s" *)
| ErrUser (code : Z).               (* an error returned by user code *)

(** Result of a Go call: a value, a returned error, or a run-time panic
    that unwinds every caller. *)
Inductive outcome (A : Type) :=
| Ok (a : A)
| Fail (e : err)
| Panic (msg : string).
Arguments Ok {A} a.
Arguments Fail {A} e.
Arguments Panic {A} msg.

(** The decoder threads the byte source through every call. *)
Definition M (A : Type) := st -> outcome A * st.

Definition ret {A} (a : A) : M A := fun s => (Ok a, s).
Definition fail {A} (e : err) : M A := fun s => (Fail e, s).
Definition panic {A} (msg : string) : M A := fun s => (Panic msg, s).
Definition bind {A B} (c : M A) (k : A -> M B) : M B :=
  fun s =>
    match c s with
    | (Ok a, s') => k a s'
    | (Fail e, s') => (Fail e, s')
    | (Panic m, s') => (Panic m, s')
    end.

Notation "x <- c ;; k" := (bind c (fun x => k))
  (at level 61, c at next level, right associativity).

(** Receivers of user methods. *)
Inductive receiver := ValueRecv | PtrRecv.

(** A user [Read] method (taking the BinaryReader): it gets the destination's
    value and the reader, and gives the returned error, the value the
    destination holds afterwards as the caller sees it, and the reader.  For a
    value receiver the method works on a copy, so what it gives is what it
    writes through the references the copy shares with the destination
    (slice elements, pointer and map targets); a method on a type without
    such references gives back the value it got. *)
Definition read_fn := value -> st -> option err * value * st.

(** A user [Validate() error] method. *)
Definition validate_fn := value -> option err.

(** The [Reader] and [Validateable] methods a named type declares. *)
Record methods := {
  m_read : option (receiver * read_fn);
  m_validate : option (receiver * validate_fn)
}.

Inductive ty :=
| TBasic (b : bkind)
| TArray (n : nat) (e : ty)
| TSlice (e : ty)
| TString
| TStruct (fs : list field)
| TNamed (m : methods) (u : ty)               (* a defined type with methods *)
| TOther (name : string) (size align : Z)     (* map, chan, pointer, ... *)
with field := Field (name : string) (fty : ty) (tags : list (string * string)).

Fixpoint kind_of (t : ty) : kind :=
  match t with
  | TBasic b => KBasic b
  | TArray _ _ => KArray
  | TSlice _ => KSlice
  | TString => KString
  | TStruct _ => KStruct
  | TNamed _ u => kind_of u
  | TOther n _ _ => KOther n
  end.

Definition bkind_eqb (a b : bkind) : bool :=
  match a, b with
  | BBool, BBool | BInt, BInt | BInt8, BInt8 | BInt16, BInt16 | BInt32, BInt32
  | BInt64, BInt64 | BUint, BUint | BUint8, BUint8 | BUint16, BUint16
  | BUint32, BUint32 | BUint64, BUint64 | BFloat32, BFloat32 | BFloat64, BFloat64 => true
  | _, _ => false
  end.

Definition kind_is_basic (k : kind) (b : bkind) : bool :=
  match k with KBasic b' => bkind_eqb b' b | _ => false end.

(** [f.Type().Elem()] of a slice type. *)
Fixpoint slice_elem (t : ty) : ty :=
  match t with
  | TSlice e => e
  | TNamed _ u => slice_elem u
  | _ => t
  end.

(** Method sets: [*T] has every method of [T], [T] only its value-receiver
    ones. *)
Definition ptr_read (t : ty) : option (receiver * read_fn) :=
  match t with
  | TNamed m _ => m_read m
  | _ => None
  end.

Definition val_read (t : ty) : option read_fn :=
  match t with
  | TNamed m _ => match m_read m with Some (ValueRecv, f) => Some f | _ => None end
  | _ => None
  end.

Definition ptr_validate (t : ty) : option validate_fn :=
  match t with
  | TNamed m _ => option_map snd (m_validate m)
  | _ => None
  end.

(** Go zero values (what [reflect.MakeSlice] fills a slice with). *)
Fixpoint zero_value (t : ty) : value :=
  match t with
  | TBasic BBool => VBool false
  | TBasic (BInt | BInt8 | BInt16 | BInt32 | BInt64) => VInt 0
  | TBasic (BUint | BUint8 | BUint16 | BUint32 | BUint64) => VUint 0
  | TBasic BFloat32 => VFloat 32 0
  | TBasic BFloat64 => VFloat 64 0
  | TArray n e => VArray (repeat (zero_value e) n)
  | TSlice _ => VSlice []
  | TString => VString []
  | TStruct fs => VStruct (map (fun f => match f with Field _ t _ => zero_value t end) fs)
  | TNamed _ u => zero_value u
  | TOther _ _ _ => VOther
  end.

(** ** [reflect.Type.Size()] on amd64 *)

Definition bkind_size (b : bkind) : Z :=
  match b with
  | BBool | BInt8 | BUint8 => 1
  | BInt16 | BUint16 => 2
  | BInt32 | BUint32 | BFloat32 => 4
  | BInt | BInt64 | BUint | BUint64 | BFloat64 => 8
  end.

Definition round_up (x a : Z) : Z := (x + a - 1) / a * a.

(** Size and alignment of a type: struct fields are laid out at offsets
    rounded up to their alignment, a non-empty struct ending in a zero-sized
    field gets one byte of padding, and the total is rounded up to the
    struct's alignment. *)
Fixpoint size_align (t : ty) : Z * Z :=
  match t with
  | TBasic b => (bkind_size b, bkind_size b)
  | TArray n e => let (s, a) := size_align e in (Z.of_nat n * s, a)
  | TSlice _ => (24, 8)
  | TString => (16, 8)
  | TStruct fs =>
      let fix layout (fs : list field) (off al : Z) (lastzero : bool) : Z * Z :=
        match fs with
        | [] =>
            let off' := if lastzero && (0 <? off) then off + 1 else off in
            (round_up off' al, al)
        | Field _ t _ :: rest =>
            let (s, a) := size_align t in
            layout rest (round_up off a + s) (Z.max al a) (s =? 0)
        end in
      layout fs 0 1 false
  | TNamed _ u => size_align u
  | TOther _ s a => (s, a)
  end.

Definition go_size (t : ty) : Z := fst (size_align t).

Fixpoint ty_depth (t : ty) : nat :=
  match t with
  | TArray _ e | TSlice e | TNamed _ e => S (ty_depth e)
  | TStruct fs =>
      S (fold_right (fun f acc => match f with Field _ t _ => Nat.max (ty_depth t) acc end) O fs)
  | _ => O
  end.

(** ** BinaryReader: byte-level operations *)

Definition log (ev : event) (s : st) : st :=
  {| src := src s; pos := pos s; endianess := endianess s; trace := trace s ++ [ev] |}.

Definition set_pos (p : Z) (s : st) : st :=
  {| src := src s; pos := p; endianess := endianess s; trace := trace s |}.

(** [BinaryReader.Read(size)]: [make([]byte, size)] panics on a negative size;
    a zero size returns without touching the source; otherwise one
    [Reader.Read] call, which on a [bytes.Reader] gives [io.EOF] at the end
    and otherwise copies what is left, up to [size] bytes. *)
Definition read_bytes (size : Z) : M (list Z) :=
  fun s =>
    if size <? 0 then (Panic "runtime error: makeslice: len out of range", s)
    else if size =? 0 then (Ok [], s)
    else
      let s1 := log (EvRead size) s in
      let avail := Z.of_nat (List.length (src s)) - pos s in
      if avail <=? 0 then (Fail ErrEOF, s1)
      else
        let n := Z.min size avail in
        let data := firstn (Z.to_nat n) (skipn (Z.to_nat (pos s)) (src s)) in
        let s2 := set_pos (pos s + n) s1 in
        if n =? size then (Ok data, s2) else (Fail ErrShortRead, s2).

(** [BinaryReader.Seek(offset, 1)] on a [bytes.Reader]. *)
Definition seek (off : Z) : M Z :=
  fun s =>
    let s1 := log (EvSeek off) s in
    let abs := pos s + off in
    if abs <? 0 then (Fail ErrNegativePosition, s1) else (Ok abs, set_pos abs s1).

Definition get_order : M byte_order := fun s => (Ok (endianess s), s).

(** [ByteOrder.Uint16/32/64] *)
Definition decode_uint (o : byte_order) (data : list Z) : Z :=
  match o with
  | LittleEndian => fold_right (fun b acc => b + 256 * acc) 0 data
  | BigEndian => fold_left (fun acc b => acc * 256 + b) data 0
  end.

Definition read_uint (n : Z) : M Z :=
  data <- read_bytes n;;
  o <- get_order;;
  ret (decode_uint o data).

Definition Uint8 : M Z := data <- read_bytes 1;; ret (hd 0 data).
Definition Uint16 : M Z := read_uint 2.
Definition Uint32 : M Z := read_uint 4.
Definition Uint64 : M Z := read_uint 8.
Definition Int8 : M Z := data <- read_bytes 1;; ret (to_signed 8 (hd 0 data)).
Definition Int16 : M Z := d <- Uint16;; ret (to_signed 16 d).
Definition Int32 : M Z := d <- Uint32;; ret (to_signed 32 d).
Definition Int64 : M Z := d <- Uint64;; ret (to_signed 64 d).
(** [Float32]/[Float64] reinterpret the bits of [Int32]/[Int64]. *)
Definition Float32 : M Z := d <- Uint32;; ret d.
Definition Float64 : M Z := d <- Uint64;; ret d.

(** The scalar cases of ReadInterface's kind switch. *)
Definition read_basic (b : bkind) : M value :=
  match b with
  | BBool => d <- Uint8;; ret (VBool (negb (d =? 0)))
  | BUint | BUint64 => d <- Uint64;; ret (VUint d)
  | BUint32 => d <- Uint32;; ret (VUint d)
  | BUint16 => d <- Uint16;; ret (VUint d)
  | BUint8 => d <- Uint8;; ret (VUint d)
  | BInt | BInt64 => d <- Int64;; ret (VInt d)
  | BInt32 => d <- Int32;; ret (VInt d)
  | BInt16 => d <- Int16;; ret (VInt d)
  | BInt8 => d <- Int8;; ret (VInt d)
  | BFloat32 => f <- Float32;; ret (VFloat 32 f)
  | BFloat64 => f <- Float64;; ret (VFloat 64 f)
  end.

(** ** expression.Eval *)

Fixpoint struct_fields (t : ty) : option (list field) :=
  match t with
  | TStruct fs => Some fs
  | TNamed _ u => struct_fields u
  | _ => None
  end.

Fixpoint field_index (name : string) (fs : list field) : option nat :=
  match fs with
  | [] => None
  | Field n _ _ :: rest =>
      if String.eqb n name then Some O
      else option_map S (field_index name rest)
  end.

(** Modelled from the spec: expression.Eval (its source, expression.go, is
    not part of the sources; only its test eval_test.go is).  A dotted path
    walks the fields of the record in scope by name, each further identifier
    naming a field of the previous record-typed value; an unknown name or a
    step through a non-record value is [UnresolvedPath]. *)
Fixpoint resolve (t : ty) (v : value) (ids : list string) : option (ty * value) :=
  match ids with
  | [] => Some (t, v)
  | id :: rest =>
      match struct_fields t, v with
      | Some fs, VStruct vs =>
          match field_index id fs with
          | Some i =>
              match nth_error fs i, nth_error vs i with
              | Some (Field _ ft _), Some fv => resolve ft fv rest
              | _, _ => None
              end
          | None => None
          end
      | _, _ => None
      end
  end.

(** Modelled from the spec: an integer field is read as a Go [int]. *)
Definition int_of_value (v : value) : option Z :=
  match v with
  | VInt z => Some z
  | VUint z => Some (wrap64 z)
  | _ => None
  end.

(** Modelled from the spec: 64-bit signed integer semantics of the
    operators, shifts being logical and comparisons giving 1 or 0. *)
Definition eval_bin (o : binop) (a b : Z) : Z :=
  let bool_int (c : bool) := if c then 1 else 0 in
  match o with
  | ShiftLeft => wrap64 (Z.shiftl a b)
  | ShiftRight => wrap64 (Z.shiftr (a mod 2 ^ 64) b)
  | Mask => Z.land a b
  | AndNot => Z.ldiff a b
  | Add => wrap64 (a + b)
  | Sub => wrap64 (a - b)
  | Mul => wrap64 (a * b)
  | Eq => bool_int (a =? b)
  | Ne => bool_int (negb (a =? b))
  | Lt => bool_int (a <? b)
  | Le => bool_int (a <=? b)
  | Gt => bool_int (b <? a)
  | Ge => bool_int (b <=? a)
  end.

(** Modelled from the spec: [Eval(&record, node)], left operand first. *)
Fixpoint eval (t : ty) (v : value) (e : expr) : option Z :=
  match e with
  | EConst z => Some z
  | EPath ids =>
      match resolve t v ids with
      | Some (_, fv) => int_of_value fv
      | None => None
      end
  | EBin o l r =>
      match eval t v l with
      | Some a => match eval t v r with Some b => Some (eval_bin o a b) | None => None end
      | None => None
      end
  end.

(** ** BinaryReader.ReadInterface *)

(** [reflect.StructTag.Get] *)
Fixpoint tag_get (key : string) (tags : list (string * string)) : string :=
  match tags with
  | [] => ""
  | (k, v) :: rest => if String.eqb k key then v else tag_get key rest
  end.

(** [e.Parse(tag)] then [expression.Eval(&v2, e.RootNode())]. *)
Definition eval_tag (ct : ty) (cv : value) (tag : string) : M Z :=
  match parse tag with
  | None => fail (ErrParse tag)
  | Some e =>
      match eval ct cv e with
      | Some z => ret z
      | None => fail ErrUnresolved
      end
  end.

(** The [if] tag: [false] means [continue] with the next field. *)
Definition cond_step (ct : ty) (cv : value) (tags : list (string * string)) : M bool :=
  let fi := tag_get "if" tags in
  if String.eqb fi "" then ret true
  else ev <- eval_tag ct cv fi;; ret (negb (ev =? 0)).

(** The [skip] tag: [r.Seek(int64(ev), 1)]. *)
Definition skip_step (ct : ty) (cv : value) (tags : list (string * string)) : M unit :=
  let l := tag_get "skip" tags in
  if String.eqb l "" then ret tt
  else ev <- eval_tag ct cv l;; _ <- seek ev;; ret tt.

(** The [length] tag, giving [size] ([-1] when absent). *)
Definition length_step (ct : ty) (cv : value) (tags : list (string * string)) : M Z :=
  let l := tag_get "length" tags in
  if String.eqb l "" then ret (-1)
  else if String.eqb l "uint8" then s <- Uint8;; ret s
  else if String.eqb l "uint16" then s <- Uint16;; ret s
  else if String.eqb l "uint32" then s <- Uint32;; ret s
  else if String.eqb l "uint64" then s <- Uint64;; ret (wrap64 s)
  else eval_tag ct cv l.

(** The [max] tag of a string without a length ([math.MaxInt32] when absent). *)
Definition max_step (ct : ty) (cv : value) (tags : list (string * string)) : M Z :=
  let m := tag_get "max" tags in
  if String.eqb m "" then ret MaxInt32 else eval_tag ct cv m.

(** [for i := 0; i < max; i++ { u, err := r.Uint8(); ... }]: bytes up to a
    null byte, and [i + 1] when the null byte was found.  Each round reads a
    byte or fails, so the fuel [cstring_loop] gives (one more than the bytes
    left in the source) is never the reason the loop stops. *)
Fixpoint cstring_iter (fuel : nat) (i mx : Z) (acc : list Z) : M (list Z * option Z) :=
  if i <? mx then
    match fuel with
    | O => ret (acc, None)
    | S f =>
        u <- Uint8;;
        if u =? 0 then ret (acc, Some (i + 1))
        else cstring_iter f (i + 1) mx (acc ++ [u])
    end
  else ret (acc, None).

Definition cstring_loop (mx : Z) : M (list Z * option Z) :=
  fun s =>
    cstring_iter (S (Z.to_nat (Z.of_nat (List.length (src s)) - pos s))) 0 mx [] s.

(** [for i, v := range data { if v == 0 { data = data[:i]; break } }] *)
Fixpoint truncate_at_nul (data : list Z) : list Z :=
  match data with
  | [] => []
  | b :: rest => if b =? 0 then [] else b :: truncate_at_nul rest
  end.

(** Decode of each element in index order. *)
Fixpoint read_elems (rd : value -> M value) (vs : list value) : M (list value) :=
  match vs with
  | [] => ret []
  | v :: rest => v' <- rd v;; rest' <- read_elems rd rest;; ret (v' :: rest')
  end.

(** The kind switch on a struct field (reader.go lines 240-303), given
    [rp t], the call [r.ReadInterface] on a pointer to a [t].  It gives the
    field's new value and [size] as the switch leaves it. *)
Definition read_field_value (rp : ty -> value -> M value) (ct : ty) (cv : value)
  (ft : ty) (tags : list (string * string)) (size : Z) (cur : value) : M (value * Z) :=
  match kind_of ft with
  | KString =>
      if 0 <=? size then
        data <- read_bytes size;;
        ret (VString (truncate_at_nul data), size)
      else
        mx <- max_step ct cv tags;;
        res <- cstring_loop mx;;
        let '(data, found) := res in
        ret (VString data, match found with Some n => n | None => size end)
  | KSlice =>
      if size =? -1 then fail ErrSliceLength
      else
        let e := slice_elem ft in
        if kind_is_basic (kind_of e) BInt8 then
          (* f.Set(reflect.ValueOf(b)) with b a []byte *)
          _ <- read_bytes size;;
          panic "reflect.Set: value of type []uint8 is not assignable to type []int8"
        else if size <? 0 then panic "reflect.MakeSlice: negative len"
        else
          vs <- read_elems (rp e) (repeat (zero_value e) (Z.to_nat size));;
          ret (VSlice vs, size)
  | _ =>
      v <- rp ft cur;;
      ret (v, go_size ft)
  end.

(** [seek] of the [align] tag, computed with Go [int] arithmetic. *)
Definition align_seek (size align : Z) : Z :=
  if align <? size then
    wrap64 (Z.ldiff (wrap64 (size + wrap64 (align - 1))) (wrap64 (align - 1)) - size)
  else if size <? align then wrap64 (align - size)
  else 0.

(** The [align] tag (evaluated once the field is set). *)
Definition align_step (ct : ty) (cv : value) (tags : list (string * string)) (size : Z) : M unit :=
  let al := tag_get "align" tags in
  if String.eqb al "" then ret tt
  else
    a <- eval_tag ct cv al;;
    let k := align_seek size a in
    if 0 <? k then _ <- seek k;; ret tt else ret tt.

Fixpoint set_nth (i : nat) (v : value) (vs : list value) : list value :=
  match i, vs with
  | O, _ :: rest => v :: rest
  | S j, w :: rest => w :: set_nth j v rest
  | _, [] => []
  end.

(** One round of the loop over the fields of a struct of type [TStruct all]
    whose current field values are [vals]. *)
Definition struct_field (rp : ty -> value -> M value) (all : list field) (i : nat)
  (f : field) (vals : list value) : M (list value) :=
  let ct := TStruct all in
  match f with
  | Field _ ft tags =>
      go <- cond_step ct (VStruct vals) tags;;
      if negb go then ret vals
      else
        _ <- skip_step ct (VStruct vals) tags;;
        size <- length_step ct (VStruct vals) tags;;
        res <- read_field_value rp ct (VStruct vals) ft tags size (nth i vals VOther);;
        let '(v, size') := res in
        let vals' := set_nth i v vals in
        _ <- align_step ct (VStruct vals') tags size';;
        ret vals'
  end.

Fixpoint struct_loop (rp : ty -> value -> M value) (all : list field) (i : nat)
  (fs : list field) (vals : list value) : M (list value) :=
  match fs with
  | [] => ret vals
  | f :: rest => vals' <- struct_field rp all i f vals;; struct_loop rp all (S i) rest vals'
  end.

Definition elems_of (v : value) : list value :=
  match v with
  | VArray vs | VSlice vs | VStruct vs => vs
  | _ => []
  end.

(** [ri.Read(r)].  The receiver kind [rc] decides only which method sets
    hold the method ([ptr_read], [val_read]); what the destination holds
    afterwards is what the method leaves in it (see [read_fn]). *)
Definition call_read (rc : receiver) (fn : read_fn) (cur : value) : M value :=
  fun s =>
    let '(r, v, s') := fn cur s in
    match r with
    | None => (Ok v, s')
    | Some e => (Fail e, s')
    end.

(** [v.(Validateable)] at the end of ReadInterface. *)
Definition validate (t : ty) (v : value) : M value :=
  match ptr_validate t with
  | Some vf => match vf v with Some e => fail e | None => ret v end
  | None => ret v
  end.

(** [r.ReadInterface(p)] for a pointer [p] to a [t] holding [cur], given the
    generic decode [gen] of a [t]: the [Reader] check, then the kind switch,
    then the [Validateable] check. *)
Definition read_ptr_with (gen : value -> M value) (t : ty) (cur : value) : M value :=
  match ptr_read t with
  | Some (rc, fn) => call_read rc fn cur
  | None => v <- gen cur;; validate t v
  end.

(** The kind switch of ReadInterface on the pointee.  The fuel bounds the
    depth of the type ([ReadInterface] passes [S (ty_depth t)], which the
    recursion never exhausts). *)
Fixpoint read_generic (fuel : nat) (t : ty) (cur : value) : M value :=
  match fuel with
  | O => panic "type nesting"
  | S f =>
      let rp (t' : ty) := read_ptr_with (read_generic f t') t' in
      match t with
      | TBasic b => read_basic b
      | TNamed _ u => read_generic f u cur
      | TArray _ e => vs <- read_elems (rp e) (elems_of cur);; ret (VArray vs)
      | TSlice e => vs <- read_elems (rp e) (elems_of cur);; ret (VSlice vs)
      | TString =>
          res <- cstring_loop MaxInt32;;
          ret (VString (fst res))
      | TStruct fs => vals <- struct_loop rp fs O fs (elems_of cur);; ret (VStruct vals)
      | TOther n _ _ => fail (ErrUnknownType (KOther n))
      end
  end.

(** The dynamic value passed to ReadInterface as an [interface{}]. *)
Inductive iface :=
| IPtr (t : ty) (cur : value)     (* a *t pointing at cur *)
| IVal (t : ty) (cur : value).    (* a non-pointer t *)

(** [func (r *BinaryReader) ReadInterface(v interface{}) error]; on success
    it gives the value the destination holds afterwards. *)
Definition ReadInterface (d : iface) : M value :=
  match d with
  | IPtr t cur => read_ptr_with (read_generic (S (ty_depth t)) t) t cur
  | IVal t cur =>
      match val_read t with
      | Some fn => call_read ValueRecv fn cur
      | None => fail (ErrNotPointer (kind_of t))
      end
  end.

(** ** Helpers for stating properties *)

Local Open Scope string_scope.

(** Number of binary operations in an expression. *)
Fixpoint binops (e : expr) : nat :=
  match e with
  | EBin _ l r => S (binops l + binops r)
  | _ => O
  end.

Definition bytes_of (s : string) : list Z :=
  map (fun c => Z.of_nat (nat_of_ascii c)) (list_ascii_of_string s).

(** A fresh reader at offset 0 of [b]. *)
Definition reader_at (b : list Z) : st := mkst b 0 LittleEndian [].

(** Concrete record types used below, written as their Go declarations. *)

(** [type Checked struct{}] with [func (c *Checked) Read(r *BinaryReader) error
    { return nil }] and [func (c *Checked) Validate() error] that always
    returns an error. *)
Definition Checked : ty :=
  TNamed {| m_read := Some (PtrRecv, fun v s => (None, v, s));
            m_validate := Some (PtrRecv, fun _ => Some (ErrUser 1)) |}
         (TStruct []).

(** [struct { A []uint16 `length:"2" align:"4"`; B uint8 }] *)
Definition AlignedWords : ty :=
  TStruct [Field "A" (TSlice (TBasic BUint16)) [("length", "2"); ("align", "4")];
           Field "B" (TBasic BUint8) []].

(** [struct { A uint32; B uint8 `skip:"0-4"` }] *)
Definition SkipBack : ty :=
  TStruct [Field "A" (TBasic BUint32) []; Field "B" (TBasic BUint8) [("skip", "0-4")]].

(** [struct { D []uint8 `length:"4"` }] *)
Definition ByteBlock : ty :=
  TStruct [Field "D" (TSlice (TBasic BUint8)) [("length", "4")]].

(** [struct { D []int8 `length:"2"` }] *)
Definition SignedBlock : ty :=
  TStruct [Field "D" (TSlice (TBasic BInt8)) [("length", "2")]].

(** [struct { A uint32 `align:"3"` }] *)
Definition OddAlign : ty :=
  TStruct [Field "A" (TBasic BUint32) [("align", "3")]].

(** [struct { S string `length:"8"` }] *)
Definition FixedName : ty :=
  TStruct [Field "S" TString [("length", "8")]].

(** [struct { A uint32 `if:"0"`; B uint8 `if:"A == 1"` }] *)
Definition AllAbsent : ty :=
  TStruct [Field "A" (TBasic BUint32) [("if", "0")];
           Field "B" (TBasic BUint8) [("if", "A == 1")]].

(** Predicates and types used in the further properties. *)

(** Every byte of the source is in 0..255. *)
Definition bytes_ok (s : st) : Prop := Forall (fun b => 0 <= b < 256) (src s).

(** Scalars, and arrays of scalars or of such arrays. *)
Fixpoint plain (t : ty) : bool :=
  match t with
  | TBasic _ => true
  | TArray _ e => plain e
  | _ => false
  end.

(** An array value holds as many elements as its type says, at every level. *)
Fixpoint shaped (t : ty) (v : value) : Prop :=
  match t with
  | TArray n e =>
      match v with
      | VArray vs => List.length vs = n /\ Forall (shaped e) vs
      | _ => False
      end
  | _ => True
  end.

(** A value of the kind [b] within the range of its width [8 * Size()]. *)
Definition fits (b : bkind) (v : value) : Prop :=
  let w := 8 * bkind_size b in
  match b, v with
  | BBool, VBool _ => True
  | (BUint | BUint8 | BUint16 | BUint32 | BUint64), VUint z => 0 <= z < 2 ^ w
  | (BInt | BInt8 | BInt16 | BInt32 | BInt64), VInt z => - 2 ^ (w - 1) <= z < 2 ^ (w - 1)
  | (BFloat32 | BFloat64), VFloat w' z => w' = w /\ 0 <= z < 2 ^ w
  | _, _ => False
  end.

(** [Identifier <- [A-Z] [_A-Za-z0-9]*] *)
Definition ident_ok (id : string) : Prop :=
  match list_ascii_of_string id with
  | c :: r => Peg.is_upper c = true /\ forallb Peg.is_ident_char r = true
  | [] => False
  end.

(** Every field path of an expression is made of identifiers. *)
Fixpoint paths_ok (e : expr) : Prop :=
  match e with
  | EConst _ => True
  | EPath ids => Forall ident_ok ids
  | EBin _ l r => paths_ok l /\ paths_ok r
  end.

(** Struct fields that carry no tag and have a [plain] type. *)
Definition untagged_plain (fs : list field) : bool :=
  forallb (fun f => match f with
                    | Field _ t [] => plain t
                    | Field _ _ (_ :: _) => false
                    end) fs.

(** Sum of the [Type().Size()] of the fields, without layout padding. *)
Definition fields_size (fs : list field) : Z :=
  fold_right (fun f acc => match f with Field _ t _ => go_size t + acc end) 0 fs.

(** The type of a struct field. *)
Definition field_ty (f : field) : ty := match f with Field _ t _ => t end.

(** Two tag lists that agree on every key but [key], which the second lacks. *)
Definition same_tags_but (key : string) (tags tags' : list (string * string)) : Prop :=
  tag_get key tags' = ""%string /\
  forall k, k <> key -> tag_get k tags' = tag_get k tags.

(** [type ValueReader uint8] with [func (v ValueReader) Read(r *BinaryReader) error]
    that reads one byte into its copy (so the destination keeps its value)
    and returns the read's error. *)
Definition ValueReader : ty :=
  TNamed {| m_read := Some (ValueRecv, fun v s =>
                              match Uint8 s with
                              | (Ok _, s') => (None, v, s')
                              | (Fail e, s') => (Some e, v, s')
                              | (Panic _, s') => (None, v, s')   (* [Read(1)] never panics *)
                              end);
            m_validate := None |}
         (TBasic BUint8).

(** * Properties *)

Local Close Scope string_scope.
Local Open Scope Z_scope.

(** ** Sanity checks of the embedding on the tests of eval_test.go *)

Example parse_ex1 : parse "(3*4)+2" = Some (EBin Add (EBin Mul (EConst 3) (EConst 4)) (EConst 2)).
Proof. reflexivity. Qed.
Example parse_ex2 : parse "Length >= 3" = Some (EBin Ge (EPath ["Length"%string]) (EConst 3)).
Proof. reflexivity. Qed.
Example parse_ex3 : parse "Sub.Something + Length"
  = Some (EBin Add (EPath ["Sub"%string; "Something"%string]) (EPath ["Length"%string])).
Proof. reflexivity. Qed.
Example parse_ex4 : parse "((Length-1)+3)&^3" <> None.
Proof. discriminate. Qed.
Example parse_ex5 : parse "0x1F" = Some (EConst 31).
Proof. reflexivity. Qed.

(** The context of eval_test.go: [struct { Length int; Sub s }{3, s{10}}]. *)
Definition eval_ctx_ty : ty :=
  TStruct [Field "Length" (TBasic BInt) [];
           Field "Sub" (TStruct [Field "Something" (TBasic BInt) []]) []].
Definition eval_ctx : value := VStruct [VInt 3; VStruct [VInt 10]].

Example eval_ex : map (fun s => match parse s with Some e => eval eval_ctx_ty eval_ctx e | None => None end)
  ["1"; "1+2"; "(3*4)+2"; "Length"; "Length+1"; "Length-1"; "(Length+3)&^3";
   "((Length-1)+3)&^3"; "Length == 3"; "Length == 4"; "Length < 4"; "Length > 3";
   "Length >= 3"; "Sub.Something"; "Sub.Something + Length"]%string
  = map Some [1; 3; 14; 3; 4; 2; 4; 4; 1; 0; 1; 0; 1; 10; 13].
Proof. vm_compute. reflexivity. Qed.

(** ** The expression grammar *)

Module PegFacts.
Import Peg.

Definition suffix_of (r s : chars) : Prop := exists p, s = p ++ r.

Lemma suffix_refl s : suffix_of s s.
Proof. exists []. reflexivity. Qed.

Lemma suffix_trans r m s : suffix_of r m -> suffix_of m s -> suffix_of r s.
Proof. intros [p1 ->] [p2 ->]. exists (p2 ++ p1). now rewrite app_assoc. Qed.

Lemma suffix_cons r c s : suffix_of r s -> suffix_of r (c :: s).
Proof. intros [p ->]. exists (c :: p). reflexivity. Qed.

Lemma suffix_not_in c r s : suffix_of r s -> ~ In c s -> ~ In c r.
Proof. intros [p ->] H Hin. apply H, in_or_app. now right. Qed.

Lemma take_while_suffix p s : suffix_of (snd (take_while p s)) s.
Proof.
  induction s as [|c s IH]; simpl.
  - apply suffix_refl.
  - destruct (p c).
    + destruct (take_while p s) as [a b] eqn:E. simpl in *. now apply suffix_cons.
    + apply suffix_refl.
Qed.

Lemma spacing_suffix s : suffix_of (spacing s) s.
Proof. apply take_while_suffix. Qed.

Lemma identifier_suffix s id r : identifier s = Some (id, r) -> suffix_of r s.
Proof.
  unfold identifier. destruct s as [|c s]; [discriminate|].
  destruct (is_upper c); [|discriminate].
  pose proof (take_while_suffix is_ident_char s) as Hs.
  destruct (take_while is_ident_char s) as [a b]. intros H; inversion H; subst.
  now apply suffix_cons.
Qed.

Lemma dot_rest_suffix n s : suffix_of (snd (dot_rest n s)) s.
Proof.
  revert s. induction n as [|n IH]; intros s; simpl; [apply suffix_refl|].
  destruct s as [|c r]; [apply suffix_refl|].
  destruct (ascii_dec c "."%char) as [->|Hc].
  - destruct (identifier r) as [[id r']|] eqn:E; [|apply suffix_refl].
    specialize (IH r'). destruct (dot_rest n r') as [ids r''] eqn:E2. simpl in *.
    apply suffix_cons. eapply suffix_trans; [exact IH|]. now apply (identifier_suffix _ id).
  - destruct c as [[] [] [] [] [] [] [] []]; try apply suffix_refl; congruence.
Qed.

Lemma dot_identifier_shape s e r :
  dot_identifier s = Some (e, r) -> binops e = O /\ suffix_of r s.
Proof.
  unfold dot_identifier. destruct (identifier s) as [[id r0]|] eqn:E; [|discriminate].
  pose proof (dot_rest_suffix (List.length r0) r0) as Hd.
  destruct (dot_rest (List.length r0) r0) as [ids r'] eqn:E2. intros H; inversion H; subst.
  split; [reflexivity|]. eapply suffix_trans; [exact Hd|]. now apply (identifier_suffix _ id).
Qed.

Lemma constant_shape s e r :
  constant s = Some (e, r) -> binops e = O /\ suffix_of r s.
Proof.
  unfold constant. intros H.
  assert (Hdec : forall r', suffix_of (snd (take_while is_digit s)) s ->
    match take_while is_digit s with
    | ([], _) => None
    | (d, r'0) => Some (EConst (wrap64 (digits_val 10 d)), r'0)
    end = Some (e, r') -> binops e = O /\ suffix_of r' s).
  { intros r' Hs. destruct (take_while is_digit s) as [[|d ds] r1]; [discriminate|].
    intros H1; inversion H1; subst. split; [reflexivity|exact Hs]. }
  destruct s as [|c0 s0]; [now apply (Hdec r (take_while_suffix _ _))|].
  destruct (ascii_dec c0 "0"%char) as [->|Hc0].
  - destruct s0 as [|c1 s1]; [now apply (Hdec r (take_while_suffix _ _))|].
    destruct (ascii_dec c1 "x"%char) as [->|Hc1].
    + pose proof (take_while_suffix is_hex s1) as Hh.
      destruct (take_while is_hex s1) as [[|h hs] r1] eqn:Eh.
      * now apply (Hdec r (take_while_suffix _ _)).
      * inversion H; subst. split; [reflexivity|]. now do 2 apply suffix_cons.
    + replace (match c1 with
               | "x"%char => _ | _ => None end) with (@None (expr * chars)) in H.
      * now apply (Hdec r (take_while_suffix _ _)).
      * destruct c1 as [[] [] [] [] [] [] [] []]; try reflexivity; congruence.
  - replace (match c0 with
             | "0"%char => _ | _ => None end) with (@None (expr * chars)) in H.
    + now apply (Hdec r (take_while_suffix _ _)).
    + destruct c0 as [[] [] [] [] [] [] [] []]; try reflexivity; congruence.
Qed.

Lemma grouping_noparen op s e r :
  ~ In "("%char s -> grouping op s = Some (e, r) -> binops e = O /\ suffix_of r s.
Proof.
  intros Hs. unfold grouping.
  pose proof (spacing_suffix s) as Hsp.
  assert (Hp : match spacing s with
               | c :: r0 =>
                   if (c =? "(")%char then
                     match op r0 with
                     | Some (e0, d :: r2) => if (d =? ")")%char then Some (e0, r2) else None
                     | _ => None
                     end
                   else None
               | [] => None
               end = None).
  { destruct (spacing s) as [|c r0] eqn:E; [reflexivity|].
    destruct (c =? "(")%char eqn:Hc; [|reflexivity].
    apply Ascii.eqb_eq in Hc. subst c.
    exfalso. apply (suffix_not_in _ _ _ Hsp Hs). now left. }
  rewrite Hp.
  destruct (constant (spacing s)) as [[e1 r1]|] eqn:Ec.
  - intros H; inversion H; subst. apply constant_shape in Ec as [He Hr].
    split; [exact He|]. eapply suffix_trans; [apply spacing_suffix|].
    eapply suffix_trans; [exact Hr|exact Hsp].
  - destruct (dot_identifier (spacing s)) as [[e1 r1]|] eqn:Ed; [|discriminate].
    intros H; inversion H; subst. apply dot_identifier_shape in Ed as [He Hr].
    split; [exact He|]. eapply suffix_trans; [apply spacing_suffix|].
    eapply suffix_trans; [exact Hr|exact Hsp].
Qed.

Lemma strip_prefix_suffix tok s r : strip_prefix tok s = Some r -> suffix_of r s.
Proof.
  revert s. induction tok as [|c tok IH]; intros s H; simpl in H.
  - inversion H; subst. apply suffix_refl.
  - destruct s as [|d s]; [discriminate|].
    destruct (c =? d)%char; [|discriminate]. apply suffix_cons. now apply IH.
Qed.

Lemma try_ops_noparen g ops s e r :
  (forall s' e' r', ~ In "("%char s' -> g s' = Some (e', r') ->
                    binops e' = O /\ suffix_of r' s') ->
  ~ In "("%char s -> try_ops g ops s = Some (e, r) ->
  (binops e <= 1)%nat /\ suffix_of r s.
Proof.
  intros Hg Hs. induction ops as [|[o tok] ops IH]; simpl; [discriminate|].
  destruct (g s) as [[l r1]|] eqn:E1; [|exact IH].
  destruct (strip_prefix tok r1) as [r2|] eqn:E2; [|exact IH].
  destruct (g r2) as [[rr r3]|] eqn:E3; [|exact IH].
  intros H; inversion H; subst.
  destruct (Hg _ _ _ Hs E1) as [Hl Hr1].
  pose proof (strip_prefix_suffix _ _ _ E2) as Hr2.
  assert (Hs2 : ~ In "("%char r2).
  { eapply suffix_not_in; [|exact Hs]. eapply suffix_trans; [exact Hr2|exact Hr1]. }
  destruct (Hg _ _ _ Hs2 E3) as [Hrr Hr3]. simpl. split; [lia|].
  eapply suffix_trans; [exact Hr3|]. eapply suffix_trans; [exact Hr2|exact Hr1].
Qed.

Lemma expression_noparen s e :
  ~ In "("%char s -> expression s = Some e -> (binops e <= 1)%nat.
Proof.
  intros Hs. unfold expression.
  set (fuel := S (List.length s)).
  assert (Hop : forall s' e' r', ~ In "("%char s' -> op fuel s' = Some (e', r') ->
                  (binops e' <= 1)%nat).
  { intros s' e' r' Hs' H. unfold fuel in H. cbn [op] in H.
    eapply try_ops_noparen; [|exact Hs'|exact H].
    intros; eapply grouping_noparen; eauto. }
  destruct (op fuel s) as [[e1 r1]|] eqn:E1.
  - destruct r1; [|discriminate]. intros H; inversion H; subst. eapply Hop; eauto.
  - destruct (grouping (op fuel) s) as [[e1 r1]|] eqn:E2; [|discriminate].
    destruct r1; [|discriminate]. intros H; inversion H; subst.
    apply grouping_noparen in E2 as [He _]; [lia|exact Hs].
Qed.
End PegFacts.

(** C8: the expression grammar has no implicit precedence: ["1+2+3"] is a
    parse error, ["(1+2)+3"] parses, and any accepted expression with more
    than one binary operation contains a parenthesis. *)
Theorem C8_no_implicit_precedence :
  parse "1+2+3" = None /\
  parse "(1+2)+3" = Some (EBin Add (EBin Add (EConst 1) (EConst 2)) (EConst 3)) /\
  (forall s e, parse s = Some e -> (2 <= binops e)%nat ->
               In "("%char (list_ascii_of_string s)).
Proof.
  split; [reflexivity|]. split; [reflexivity|].
  intros s e Hp Hb. destruct (in_dec ascii_dec "("%char (list_ascii_of_string s)) as [Hin|Hn];
    [exact Hin|].
  apply PegFacts.expression_noparen in Hp; [lia|exact Hn].
Qed.

(** ** Alignment padding *)

Lemma wrap64_id z : - 2 ^ 63 <= z < 2 ^ 63 -> wrap64 z = z.
Proof.
  intros H. unfold wrap64. rewrite Z.mod_small; lia.
Qed.

(** [x &^ (2^k - 1)] rounds [x] down to a multiple of [2^k]. *)
Lemma ldiff_pow2_pred x k : 0 <= k -> Z.ldiff x (2 ^ k - 1) = x / 2 ^ k * 2 ^ k.
Proof.
  intros Hk. replace (2 ^ k - 1) with (Z.ones k) by (rewrite Z.ones_equiv; lia).
  rewrite Z.ldiff_ones_r by exact Hk.
  rewrite Z.shiftl_mul_pow2, Z.shiftr_div_pow2 by exact Hk. reflexivity.
Qed.

(** The seek [align_step] performs, if any. *)
Lemma align_step_trace ct cv tags size s a :
  tag_get "align" tags <> ""%string ->
  eval_tag ct cv (tag_get "align" tags) s = (Ok a, s) ->
  trace (snd (align_step ct cv tags size s))
  = trace s ++ (if 0 <? align_seek size a then [EvSeek (align_seek size a)] else []).
Proof.
  intros Hne Hev. unfold align_step.
  destruct (String.eqb (tag_get "align" tags) "") eqn:E.
  - apply String.eqb_eq in E. contradiction.
  - unfold bind at 1. rewrite Hev.
    destruct (0 <? align_seek size a) eqn:Hk.
    + unfold bind, seek. simpl.
      destruct (pos s + align_seek size a <? 0); reflexivity.
    + simpl. now rewrite app_nil_r.
Qed.

Lemma ldiff_sub x m : Z.ldiff x m = x - Z.land x m.
Proof.
  rewrite Z.sub_nocarry_ldiff.
  - apply Z.bits_inj. intros k. rewrite !Z.ldiff_spec, Z.land_spec.
    destruct (Z.testbit x k), (Z.testbit m k); reflexivity.
  - apply Z.bits_inj. intros k. rewrite Z.ldiff_spec, Z.land_spec, Z.bits_0.
    destruct (Z.testbit x k), (Z.testbit m k); reflexivity.
Qed.
Lemma land_bound x m : 0 <= m -> 0 <= Z.land x m <= m.
Proof.
  intros Hm. split; [apply Z.land_nonneg; now right|].
  pose proof (ldiff_sub m x) as E. rewrite Z.land_comm in E.
  pose proof (Z.ldiff_nonneg m x). lia.
Qed.

(** Go's [int] arithmetic forgets multiples of 2^64. *)
Lemma wrap64_sub_mul z q : wrap64 (z - q * 2 ^ 64) = wrap64 z.
Proof.
  unfold wrap64. replace (z - q * 2 ^ 64 + 2 ^ 63) with (z + 2 ^ 63 + - q * 2 ^ 64) by ring.
  now rewrite Z_mod_plus_full.
Qed.

Lemma wrap64_as_sub z : wrap64 z = z - (z + 2 ^ 63) / 2 ^ 64 * 2 ^ 64.
Proof.
  unfold wrap64. rewrite Z.mod_eq by lia. ring.
Qed.

Lemma align_seek_pow2 size a k :
  - 2 ^ 63 <= size < 2 ^ 63 -> 0 < a < 2 ^ 63 -> a < size -> a = 2 ^ k ->
  align_seek size a = round_up size a - size.
Proof.
  intros Hs Ha Hlt Hk.
  assert (Hk0 : 0 <= k).
  { destruct (Z.neg_nonneg_cases k) as [Hn|Hn]; [|exact Hn].
    rewrite Z.pow_neg_r in Hk by exact Hn. lia. }
  assert (Hk1 : k <= 64).
  { destruct (Z.le_gt_cases k 64) as [H|H]; [exact H|].
    pose proof (Z.pow_le_mono_r 2 64 k ltac:(lia) ltac:(lia)). lia. }
  unfold align_seek.
  replace (a <? size) with true by (symmetry; apply Z.ltb_lt; lia).
  rewrite (wrap64_id (a - 1)) by lia.
  rewrite (wrap64_as_sub (size + (a - 1))).
  set (q := (size + (a - 1) + 2 ^ 63) / 2 ^ 64).
  assert (E64 : 2 ^ 64 = 2 ^ (64 - k) * 2 ^ k)
    by (rewrite <- Z.pow_add_r by lia; f_equal; lia).
  rewrite Hk at 2. rewrite ldiff_pow2_pred by exact Hk0. rewrite <- Hk.
  replace (size + (a - 1) - q * 2 ^ 64) with (size + (a - 1) + - (q * 2 ^ (64 - k)) * a)
    by (rewrite E64, Hk; ring).
  rewrite Z.div_add by lia.
  replace (((size + (a - 1)) / a + - (q * 2 ^ (64 - k))) * a - size)
    with (((size + (a - 1)) / a * a - size) - q * 2 ^ 64) by (rewrite E64, Hk; ring).
  rewrite wrap64_sub_mul.
  unfold round_up. replace (size + a - 1) with (size + (a - 1)) by lia.
  pose proof (Z.div_mod (size + (a - 1)) a ltac:(lia)) as Hdm.
  pose proof (Z.mod_pos_bound (size + (a - 1)) a ltac:(lia)) as Hb.
  apply wrap64_id. lia.
Qed.

(** C5 (as amended): for a positive alignment [a] and a recorded size
    [size], both Go [int]s ([size] may be negative, e.g. -1 for a string
    without a length that reached its [max]), the [align] tag pads by
    [a - size] computed as a Go [int] when [a > size] (exactly [a - size]
    unless [size <= a - 2^63], where the difference wraps), not at all when
    [a = size], and by [((size + a - 1) &^ (a - 1)) - size] computed as a Go
    [int] when [a < size] (that expression itself when [size + a - 1] does not
    overflow), which is [round_up(size, a) - size] whenever [a] is a power of
    two; a seek is issued exactly when the padding is positive.  Hence
    [size = 3, a = 4] pads 1 byte, [size = 5, a = 4] pads 3 bytes and
    [size = -1, a = 4] pads 5 bytes. *)
Theorem C5_align_padding (size a : Z) :
  - 2 ^ 63 <= size < 2 ^ 63 -> 0 < a < 2 ^ 63 ->
  (size < a -> align_seek size a = wrap64 (a - size)) /\
  (size < a -> a - 2 ^ 63 < size -> align_seek size a = a - size) /\
  (a = size -> align_seek size a = 0) /\
  (a < size -> size + (a - 1) < 2 ^ 63 ->
     align_seek size a = Z.ldiff (size + (a - 1)) (a - 1) - size) /\
  (a < size -> forall k, a = 2 ^ k -> align_seek size a = round_up size a - size) /\
  (forall ct cv tags s,
     tag_get "align" tags <> ""%string ->
     eval_tag ct cv (tag_get "align" tags) s = (Ok a, s) ->
     trace (snd (align_step ct cv tags size s))
     = trace s ++ (if 0 <? align_seek size a then [EvSeek (align_seek size a)] else [])) /\
  align_seek 3 4 = 1 /\ align_seek 5 4 = 3 /\ align_seek (-1) 4 = 5.
Proof.
  intros Hs Ha. split; [|split; [|split; [|split; [|split; [|split]]]]].
  - intros Hlt. unfold align_seek.
    replace (a <? size) with false by (symmetry; apply Z.ltb_ge; lia).
    now replace (size <? a) with true by (symmetry; apply Z.ltb_lt; lia).
  - intros Hlt Hov. unfold align_seek.
    replace (a <? size) with false by (symmetry; apply Z.ltb_ge; lia).
    replace (size <? a) with true by (symmetry; apply Z.ltb_lt; lia).
    apply wrap64_id. lia.
  - intros ->. unfold align_seek. now rewrite Z.ltb_irrefl.
  - intros Hlt Hov. unfold align_seek.
    replace (a <? size) with true by (symmetry; apply Z.ltb_lt; lia).
    rewrite (wrap64_id (a - 1)) by lia.
    rewrite (wrap64_id (size + (a - 1))) by lia.
    apply wrap64_id. rewrite ldiff_sub.
    pose proof (land_bound (size + (a - 1)) (a - 1) ltac:(lia)). lia.
  - intros Hlt k Hk. exact (align_seek_pow2 size a k Hs Ha Hlt Hk).
  - intros. now apply align_step_trace.
  - repeat split; reflexivity.
Qed.

(** C5 fails as stated for an alignment that is not a power of two: a
    4-byte field aligned to 3 gets no padding, not [round_up(4, 3) - 4 = 2]. *)
Lemma C5_odd_alignment_counterexample :
  round_up 4 3 - 4 = 2 /\
  align_seek 4 3 = 0 /\
  snd (ReadInterface (IPtr OddAlign (zero_value OddAlign)) (reader_at [1; 2; 3; 4; 5; 6]))
  = mkst [1; 2; 3; 4; 5; 6] 4 LittleEndian [EvRead 4].
Proof. vm_compute. repeat split; reflexivity. Qed.

(** ** The Reader and Validateable hooks *)

(** C9: a destination whose method set has [Read] is handed to that method
    at once, pointer or not; the "Expected a pointer" error comes only from
    non-pointer destinations without a [Read] method. *)
Theorem C9_custom_reader_before_pointer_check :
  (forall t cur rc fn s, ptr_read t = Some (rc, fn) ->
     ReadInterface (IPtr t cur) s = call_read rc fn cur s) /\
  (forall t cur fn s, val_read t = Some fn ->
     ReadInterface (IVal t cur) s = call_read ValueRecv fn cur s) /\
  (forall t cur s, val_read t = None ->
     ReadInterface (IVal t cur) s = (Fail (ErrNotPointer (kind_of t)), s)).
Proof.
  split; [|split].
  - intros t cur rc fn s H. simpl. unfold read_ptr_with. now rewrite H.
  - intros t cur fn s H. simpl. now rewrite H.
  - intros t cur s H. simpl. now rewrite H.
Qed.

(** C1 (code defect): for [Checked], whose [Read] succeeds and whose
    [Validate] always fails, ReadInterface returns no error: the [Reader]
    branch returns before the [Validateable] check is reached. *)
Theorem C1_validate_skipped_after_custom_read :
  validate Checked (VStruct []) (reader_at []) = (Fail (ErrUser 1), reader_at []) /\
  ReadInterface (IPtr Checked (VStruct [])) (reader_at [])
  = (Ok (VStruct []), reader_at []).
Proof. split; reflexivity. Qed.

(** ** Conditional fields *)

Lemma parse_empty : parse "" = None.
Proof. reflexivity. Qed.

Lemma cond_step_zero ct cv tags s e :
  parse (tag_get "if" tags) = Some e -> eval ct cv e = Some 0 ->
  cond_step ct cv tags s = (Ok false, s).
Proof.
  intros Hp He. unfold cond_step.
  destruct (String.eqb (tag_get "if" tags) "") eqn:E.
  - apply String.eqb_eq in E. rewrite E, parse_empty in Hp. discriminate.
  - unfold bind, eval_tag. rewrite Hp, He. reflexivity.
Qed.

Lemma struct_field_absent rp all i name ft tags vals s e :
  parse (tag_get "if" tags) = Some e -> eval (TStruct all) (VStruct vals) e = Some 0 ->
  struct_field rp all i (Field name ft tags) vals s = (Ok vals, s).
Proof.
  intros Hp He. unfold struct_field, bind at 1.
  rewrite (cond_step_zero _ _ _ s _ Hp He). reflexivity.
Qed.

Lemma struct_loop_absent rp all fs i vals s :
  (forall name ft tags, In (Field name ft tags) fs ->
     exists e, parse (tag_get "if" tags) = Some e /\ eval (TStruct all) (VStruct vals) e = Some 0) ->
  struct_loop rp all i fs vals s = (Ok vals, s).
Proof.
  revert i. induction fs as [|[name ft tags] fs IH]; intros i H; [reflexivity|].
  cbn [struct_loop]. unfold bind at 1.
  destruct (H name ft tags (or_introl eq_refl)) as [e [Hp He]].
  rewrite (struct_field_absent _ _ _ _ _ _ _ s _ Hp He).
  apply IH. intros n t g Hin. apply (H n t g). now right.
Qed.

(** C6: a field whose [if] tag evaluates to 0 is passed over without
    touching the byte source (no read, skip, length or align processing) and
    keeps the value it had, so a record whose fields are all absent is
    decoded without consuming any byte and keeps all its (zero) values. *)
Theorem C6_absent_fields_consume_nothing :
  (forall rp all i name ft tags vals s e,
     parse (tag_get "if" tags) = Some e -> eval (TStruct all) (VStruct vals) e = Some 0 ->
     struct_field rp all i (Field name ft tags) vals s = (Ok vals, s)) /\
  (forall fs vals s,
     (forall name ft tags, In (Field name ft tags) fs ->
        exists e, parse (tag_get "if" tags) = Some e /\
                  eval (TStruct fs) (VStruct vals) e = Some 0) ->
     ReadInterface (IPtr (TStruct fs) (VStruct vals)) s = (Ok (VStruct vals), s)).
Proof.
  split.
  - intros. eapply struct_field_absent; eauto.
  - intros fs vals s H. simpl. unfold read_ptr_with. simpl.
    unfold bind at 1. simpl. unfold bind at 1.
    rewrite struct_loop_absent by exact H. reflexivity.
Qed.

(** ** Field values *)

Ltac inv_bind H :=
  unfold bind in H; cbv beta in H;
  lazymatch type of H with
  | context [match ?c ?s with _ => _ end] =>
      let E := fresh "E" in
      destruct (c s) as [[?|?|?] ?] eqn:E; [|discriminate H|discriminate H]
  end.

Lemma read_bytes_pos n s d s' :
  read_bytes n s = (Ok d, s') -> 0 <= n /\ pos s' = pos s + n.
Proof.
  unfold read_bytes.
  destruct (n <? 0) eqn:H0; [discriminate|].
  destruct (n =? 0) eqn:H1.
  { intros H; inversion H; subst. apply Z.eqb_eq in H1. lia. }
  destruct (Z.of_nat (List.length (src s)) - pos s <=? 0) eqn:H2; [discriminate|].
  destruct (Z.min n (Z.of_nat (List.length (src s)) - pos s) =? n) eqn:H3; [|discriminate].
  intros H; inversion H; subst. apply Z.eqb_eq in H3. apply Z.ltb_ge in H0.
  simpl. lia.
Qed.

Lemma read_bytes_ok n s :
  0 < n -> 0 <= pos s -> pos s + n <= Z.of_nat (List.length (src s)) ->
  read_bytes n s
  = (Ok (firstn (Z.to_nat n) (skipn (Z.to_nat (pos s)) (src s))),
     set_pos (pos s + n) (log (EvRead n) s)).
Proof.
  intros Hn Hp Hl. unfold read_bytes.
  replace (n <? 0) with false by (symmetry; apply Z.ltb_ge; lia).
  replace (n =? 0) with false by (symmetry; apply Z.eqb_neq; lia).
  replace (Z.of_nat (List.length (src s)) - pos s <=? 0) with false
    by (symmetry; apply Z.leb_gt; lia).
  replace (Z.min n (Z.of_nat (List.length (src s)) - pos s)) with n by lia.
  now rewrite Z.eqb_refl.
Qed.

Lemma eval_tag_state ct cv t s : snd (eval_tag ct cv t s) = s.
Proof.
  unfold eval_tag. destruct (parse t); [|reflexivity].
  destruct (eval ct cv e); reflexivity.
Qed.

Lemma max_step_state ct cv tags s : snd (max_step ct cv tags s) = s.
Proof.
  unfold max_step. destruct (String.eqb _ _); [reflexivity|apply eval_tag_state].
Qed.

Lemma cstring_iter_pos fuel i mx acc s d n s' :
  cstring_iter fuel i mx acc s = (Ok (d, Some n), s') -> pos s' = pos s + (n - i).
Proof.
  revert i acc s. induction fuel as [|f IH]; intros i acc s H; simpl in H;
    destruct (i <? mx); try discriminate.
  unfold Uint8 in H. inv_bind H.
  apply read_bytes_pos in E as [_ Hp]. cbn [ret] in H.
  destruct (hd 0 a =? 0).
  - inversion H; subst. lia.
  - apply IH in H. lia.
Qed.

(** C2 (code defect): the [size] the [align] tag is computed from, as the
    kind switch leaves it.  For a string with a length it is that length, the
    number of bytes read; for a string without one it is the number of bytes
    read up to and including the null byte (or the unchanged [size] when none
    was found); for every other non-slice field it is [Type().Size()].  The
    slice branch alone never sets [size] to a byte count: it keeps the element
    count from the [length] tag, whatever the element size. *)
Theorem C2_align_size rp ct cv ft tags size cur s v size' s' :
  read_field_value rp ct cv ft tags size cur s = (Ok (v, size'), s') ->
  match kind_of ft with
  | KString =>
      (0 <= size -> size' = size /\ pos s' = pos s + size) /\
      (size < 0 -> size' = size \/ pos s' = pos s + size')
  | KSlice => size' = size
  | _ => size' = go_size ft
  end.
Proof.
  unfold read_field_value. destruct (kind_of ft) eqn:Hk; intros H.
  1,2,5,6: inv_bind H; cbn [ret] in H; now inversion H.
  - (* slice *)
    destruct (size =? -1); [discriminate|].
    destruct (kind_is_basic (kind_of (slice_elem ft)) BInt8).
    { inv_bind H. discriminate. }
    destruct (size <? 0); [discriminate|].
    inv_bind H. cbn [ret] in H. now inversion H.
  - (* string *)
    destruct (0 <=? size) eqn:Hs.
    + inv_bind H. cbn [ret] in H. inversion H; subst.
      apply read_bytes_pos in E as [_ Hp]. apply Z.leb_le in Hs.
      split; [intros _; split; [reflexivity|exact Hp]|lia].
    + apply Z.leb_gt in Hs. split; [lia|intros _].
      inv_bind H. pose proof (max_step_state ct cv tags s) as Hm. rewrite E in Hm.
      simpl in Hm. subst.
      unfold cstring_loop in H.
      destruct (cstring_iter _ 0 a [] _) as [[[d found]|?|?] s2] eqn:Ec;
        try discriminate.
      cbn [ret] in H. inversion H; subst.
      destruct found as [n|]; [|now left].
      right. apply cstring_iter_pos in Ec. lia.
Qed.

(** C2's defect at work: a [[]uint16] field of length 2 consumes 4 bytes,
    yet its alignment to 4 is computed from the element count 2, padding 2
    bytes where the 4 consumed bytes need none. *)
Lemma C2_slice_align_counterexample :
  align_seek 4 4 = 0 /\
  snd (ReadInterface (IPtr AlignedWords (zero_value AlignedWords))
                     (reader_at [1; 2; 3; 4; 5; 6; 7]))
  = mkst [1; 2; 3; 4; 5; 6; 7] 7 LittleEndian [EvRead 2; EvRead 2; EvSeek 2; EvRead 1].
Proof. vm_compute. split; reflexivity. Qed.

(** ** Strings with a length *)

Lemma truncate_at_nul_first p q :
  ~ In 0 p -> truncate_at_nul (p ++ 0 :: q) = p.
Proof.
  induction p as [|b p IH]; intros Hn; simpl; [reflexivity|].
  destruct (b =? 0) eqn:E.
  - apply Z.eqb_eq in E. subst. exfalso. apply Hn. now left.
  - f_equal. apply IH. intros Hin. apply Hn. now right.
Qed.

Lemma truncate_at_nul_none d : ~ In 0 d -> truncate_at_nul d = d.
Proof.
  induction d as [|b d IH]; intros Hn; simpl; [reflexivity|].
  destruct (b =? 0) eqn:E.
  - apply Z.eqb_eq in E. subst. exfalso. apply Hn. now left.
  - f_equal. apply IH. intros Hin. apply Hn. now right.
Qed.

(** C7: a string field whose length resolves to [n] (with [n] bytes left)
    reads exactly the next [n] bytes in one read and holds them cut at the
    first null byte, the bytes after it dropped without error; so a length-8
    field over ["abc\0xxxx"] decodes to ["abc"], consuming all 8 bytes. *)
Theorem C7_fixed_length_string :
  (forall rp ct cv ft tags n cur s,
     kind_of ft = KString -> 0 <= n -> 0 <= pos s ->
     pos s + n <= Z.of_nat (List.length (src s)) ->
     let data := firstn (Z.to_nat n) (skipn (Z.to_nat (pos s)) (src s)) in
     List.length data = Z.to_nat n /\
     exists s',
       read_field_value rp ct cv ft tags n cur s = (Ok (VString (truncate_at_nul data), n), s') /\
       pos s' = pos s + n /\
       trace s' = trace s ++ (if n =? 0 then [] else [EvRead n])) /\
  (forall p q, ~ In 0 p -> truncate_at_nul (p ++ 0 :: q) = p) /\
  (forall d, ~ In 0 d -> truncate_at_nul d = d) /\
  ReadInterface (IPtr FixedName (zero_value FixedName))
                (reader_at (bytes_of "abc" ++ [0] ++ bytes_of "xxxx"))
  = (Ok (VStruct [VString (bytes_of "abc")]),
     mkst (bytes_of "abc" ++ [0] ++ bytes_of "xxxx") 8 LittleEndian [EvRead 8]).
Proof.
  split; [|split; [exact truncate_at_nul_first|split; [exact truncate_at_nul_none|]]].
  2: vm_compute; reflexivity.
  intros rp ct cv ft tags n cur s Hk Hn Hp Hl data. split.
  { unfold data. rewrite length_firstn, length_skipn. lia. }
  unfold read_field_value. rewrite Hk.
  replace (0 <=? n) with true by (symmetry; apply Z.leb_le; exact Hn).
  destruct (Z.eq_dec n 0) as [->|Hn0].
  - exists s. simpl. rewrite app_nil_r. unfold data. simpl. repeat split; lia.
  - unfold bind. rewrite read_bytes_ok by lia.
    eexists. split; [reflexivity|]. simpl. split; [reflexivity|].
    replace (n =? 0) with false by (symmetry; apply Z.eqb_neq; exact Hn0). reflexivity.
Qed.

(** ** Slices of single-byte elements *)

(** C10: for a slice field whose elements have kind int8 and whose length
    resolves to [n >= 1] with [n] bytes left, the field's decode reads the
    [n] bytes and then panics assigning the [[]byte] to the [[]int8]
    field; it never completes. *)
Theorem C10_int8_slice_panics rp ct cv ft tags n cur s :
  kind_of ft = KSlice -> kind_of (slice_elem ft) = KBasic BInt8 ->
  1 <= n -> 0 <= pos s -> pos s + n <= Z.of_nat (List.length (src s)) ->
  read_field_value rp ct cv ft tags n cur s
  = (Panic "reflect.Set: value of type []uint8 is not assignable to type []int8",
     set_pos (pos s + n) (log (EvRead n) s)).
Proof.
  intros Hk He Hn Hp Hl. unfold read_field_value. rewrite Hk, He.
  replace (n =? -1) with false by (symmetry; apply Z.eqb_neq; lia).
  simpl. unfold bind. rewrite read_bytes_ok by lia. reflexivity.
Qed.

(** C4 (code defect): the raw-block branch tests for int8 elements, so a
    [[]uint8] field of length 4 is read element by element, with four
    one-byte reads each through ReadInterface, not with one 4-byte read. *)
Theorem C4_byte_slice_read_per_element :
  ReadInterface (IPtr ByteBlock (zero_value ByteBlock)) (reader_at [1; 2; 3; 4])
  = (Ok (VStruct [VSlice [VUint 1; VUint 2; VUint 3; VUint 4]]),
     mkst [1; 2; 3; 4] 4 LittleEndian [EvRead 1; EvRead 1; EvRead 1; EvRead 1]).
Proof. vm_compute. reflexivity. Qed.

(** ** Seeks *)

(** C3 fails as stated: [skip:"0-4"] after a 4-byte field seeks back by 4
    bytes, and the next field reads the first byte again. *)
Lemma C3_backward_skip_counterexample :
  ReadInterface (IPtr SkipBack (zero_value SkipBack)) (reader_at [1; 2; 3; 4])
  = (Ok (VStruct [VUint 67305985; VUint 1]),
     mkst [1; 2; 3; 4] 1 LittleEndian [EvRead 4; EvSeek (-4); EvRead 1]).
Proof. vm_compute. reflexivity. Qed.

(** C3 (as amended): alignment padding only ever seeks forward, by a
    positive offset; a [skip] tag seeks by exactly the value its expression
    evaluates to, whatever its sign. *)
Theorem C3_seek_offsets :
  (forall ct cv tags size s,
     trace (snd (align_step ct cv tags size s)) = trace s \/
     exists k, 0 < k /\ trace (snd (align_step ct cv tags size s)) = trace s ++ [EvSeek k]) /\
  (forall ct cv tags s ev,
     tag_get "skip" tags <> ""%string ->
     eval_tag ct cv (tag_get "skip" tags) s = (Ok ev, s) ->
     trace (snd (skip_step ct cv tags s)) = trace s ++ [EvSeek ev]).
Proof.
  split.
  - intros ct cv tags size s.
    destruct (String.eqb (tag_get "align" tags) "") eqn:E0.
    { left. unfold align_step. now rewrite E0. }
    assert (Hne : tag_get "align" tags <> ""%string).
    { intros Heq. rewrite Heq in E0. discriminate. }
    pose proof (eval_tag_state ct cv (tag_get "align" tags) s) as Hs.
    destruct (eval_tag ct cv (tag_get "align" tags) s) as [[a|e|m] s1] eqn:Ev;
      simpl in Hs; subst s1.
    + rewrite (align_step_trace _ _ _ _ _ a Hne Ev).
      destruct (0 <? align_seek size a) eqn:Hk.
      * right. exists (align_seek size a). split; [now apply Z.ltb_lt|reflexivity].
      * left. apply app_nil_r.
    + left. unfold align_step. rewrite E0. unfold bind. cbv beta. now rewrite Ev.
    + left. unfold align_step. rewrite E0. unfold bind. cbv beta. now rewrite Ev.
  - intros ct cv tags s ev Hne Hev. unfold skip_step.
    destruct (String.eqb (tag_get "skip" tags) "") eqn:E.
    + apply String.eqb_eq in E. contradiction.
    + unfold bind at 1. rewrite Hev. unfold bind, seek. simpl.
      destruct (pos s + ev <? 0); reflexivity.
Qed.

(** ** Further properties of the reader and the parser *)

Lemma Forall_firstn_skipn {A} (P : A -> Prop) n m l :
  Forall P l -> Forall P (firstn n (skipn m l)).
Proof.
  intros H. rewrite <- (firstn_skipn m l) in H. apply Forall_app in H as [_ H].
  rewrite <- (firstn_skipn n (skipn m l)) in H. now apply Forall_app in H as [H _].
Qed.

Lemma read_bytes_data n s d s' :
  0 <= pos s -> read_bytes n s = (Ok d, s') ->
  Z.of_nat (List.length d) = n /\ (bytes_ok s -> Forall (fun b => 0 <= b < 256) d).
Proof.
  intros Hp. unfold read_bytes.
  destruct (n <? 0) eqn:H0; [discriminate|].
  destruct (n =? 0) eqn:H1.
  { intros H; inversion H; subst. apply Z.eqb_eq in H1. split; [simpl; lia|constructor]. }
  destruct (Z.of_nat (List.length (src s)) - pos s <=? 0) eqn:H2; [discriminate|].
  destruct (Z.min n (Z.of_nat (List.length (src s)) - pos s) =? n) eqn:H3; [|discriminate].
  intros H; inversion H; subst. apply Z.eqb_eq in H3. apply Z.ltb_ge in H0.
  apply Z.leb_gt in H2. split.
  - rewrite length_firstn, length_skipn. lia.
  - intros Hb. now apply Forall_firstn_skipn.
Qed.

Lemma decode_le_range l :
  Forall (fun b => 0 <= b < 256) l ->
  0 <= fold_right (fun b acc => b + 256 * acc) 0 l < 256 ^ Z.of_nat (List.length l).
Proof.
  induction 1 as [|b l Hb Hl IH]; cbn [fold_right List.length]; [simpl; lia|].
  rewrite Nat2Z.inj_succ, Z.pow_succ_r by lia. nia.
Qed.

Lemma decode_be_range l acc k :
  Forall (fun b => 0 <= b < 256) l -> 0 <= k -> 0 <= acc < 256 ^ k ->
  0 <= fold_left (fun acc b => acc * 256 + b) l acc < 256 ^ (k + Z.of_nat (List.length l)).
Proof.
  intros H. revert acc k. induction H as [|b l Hb Hl IH]; intros acc k Hk Ha; cbn [fold_left List.length].
  - rewrite Z.add_0_r. exact Ha.
  - replace (k + Z.of_nat (S (List.length l))) with ((k + 1) + Z.of_nat (List.length l)) by lia.
    apply IH; [lia|]. rewrite Z.pow_add_r by lia. nia.
Qed.

Lemma decode_uint_range o l :
  Forall (fun b => 0 <= b < 256) l ->
  0 <= decode_uint o l < 256 ^ Z.of_nat (List.length l).
Proof.
  intros H. destruct o; simpl.
  - now apply decode_le_range.
  - pose proof (decode_be_range l 0 0 H) as R. simpl in R. apply R; lia.
Qed.

Lemma read_uint_range n s v s' :
  0 <= pos s -> bytes_ok s -> read_uint n s = (Ok v, s') -> 0 <= v < 256 ^ n.
Proof.
  intros Hp Hb H. unfold read_uint in H. inv_bind H.
  apply read_bytes_data in E as [Hl Hf]; [|exact Hp].
  unfold get_order, bind, ret in H. inversion H; subst.
  apply decode_uint_range. now apply Hf.
Qed.

Lemma read_uint_pos n s v s' :
  read_uint n s = (Ok v, s') -> pos s' = pos s + n.
Proof.
  intros H. unfold read_uint in H. inv_bind H.
  apply read_bytes_pos in E as [_ Hp]. unfold get_order, bind, ret in H.
  inversion H; subst. exact Hp.
Qed.

Lemma uint8_range s v s' :
  0 <= pos s -> bytes_ok s -> Uint8 s = (Ok v, s') -> 0 <= v < 256.
Proof.
  intros Hp Hb H. unfold Uint8 in H. inv_bind H.
  apply read_bytes_data in E as [Hl Hf]; [|exact Hp].
  cbn [ret] in H. inversion H; subst.
  specialize (Hf Hb). destruct Hf as [|b l Hb0 _]; [discriminate|exact Hb0].
Qed.

Lemma uint8_pos s v s' : Uint8 s = (Ok v, s') -> pos s' = pos s + 1.
Proof.
  intros H. unfold Uint8 in H. inv_bind H.
  apply read_bytes_pos in E as [_ Hp]. cbn [ret] in H. inversion H; subst. exact Hp.
Qed.

Lemma to_signed_range w z :
  1 <= w -> 0 <= z < 2 ^ w -> - 2 ^ (w - 1) <= to_signed w z < 2 ^ (w - 1).
Proof.
  intros Hw Hz. unfold to_signed.
  assert (E : 2 ^ w = 2 * 2 ^ (w - 1)).
  { rewrite <- Z.pow_succ_r by lia. f_equal. lia. }
  destruct (z <? 2 ^ (w - 1)) eqn:Hl; [apply Z.ltb_lt in Hl|apply Z.ltb_ge in Hl]; lia.
Qed.

Lemma read_uint_fits n s d s' :
  0 <= pos s -> bytes_ok s -> read_uint n s = (Ok d, s') ->
  0 <= d < 256 ^ n /\ pos s' = pos s + n.
Proof.
  intros Hp Hb H. split; [exact (read_uint_range n s d s' Hp Hb H)|exact (read_uint_pos n s d s' H)].
Qed.

(** Evaluates powers of numerals. *)
Ltac norm_pow :=
  repeat match goal with
  | H : context [?b ^ ?k] |- _ =>
      let v := eval vm_compute in (b ^ k) in change (b ^ k) with v in H
  | |- context [?b ^ ?k] =>
      let v := eval vm_compute in (b ^ k) in change (b ^ k) with v
  end.

(** The scalar cases of ReadInterface: over a source of bytes, each scalar kind gives a value of that kind within the range of its width (unsigned in [0, 2^w), signed in [-2^(w-1), 2^(w-1)), floats as w-bit patterns) and consumes exactly [Type().Size()] bytes. *)
Theorem read_basic_fits b s v s' :
  0 <= pos s -> bytes_ok s -> read_basic b s = (Ok v, s') ->
  fits b v /\ pos s' = pos s + bkind_size b.
Proof.
  intros Hp Hb H.
  destruct b; cbn [read_basic] in H;
    unfold Int8, Int16, Int32, Int64, Float32, Float64 in H; unfold Uint16, Uint32, Uint64 in H;
    inv_bind H; cbn [ret] in H; inversion H; subst; clear H.
  all: try (inv_bind E; cbn [ret] in E; inversion E; subst; clear E).
  all: try match goal with
       | E : read_uint _ _ = _ |- _ => apply read_uint_fits in E as [? ?]; [|exact Hp|exact Hb]
       | E : Uint8 _ = _ |- _ =>
           pose proof (uint8_range _ _ _ Hp Hb E); apply uint8_pos in E
       | E : read_bytes _ _ = _ |- _ =>
           pose proof (read_bytes_pos _ _ _ _ E) as [_ ?];
           apply read_bytes_data in E as [Hl Hf]; [|exact Hp]; specialize (Hf Hb);
           destruct Hf as [|? ? ? _]; [discriminate|]; cbn [hd]
       end.
  all: cbv beta iota zeta delta [fits bkind_size].
  all: try match goal with
       | |- context [to_signed ?w ?a] =>
           let H := fresh in
           assert (H : 0 <= a < 2 ^ w) by (norm_pow; lia);
           apply (to_signed_range w a ltac:(lia)) in H
       end.
  all: norm_pow; lia.
Qed.

Lemma plain_no_methods t : plain t = true -> ptr_read t = None /\ ptr_validate t = None.
Proof. destruct t; simpl; try discriminate; auto. Qed.

Lemma read_elems_pos rd k vs s ws s' :
  (forall c, In c vs -> forall s v s', rd c s = (Ok v, s') -> pos s' = pos s + k) ->
  read_elems rd vs s = (Ok ws, s') ->
  List.length ws = List.length vs /\ pos s' = pos s + Z.of_nat (List.length vs) * k.
Proof.
  revert s ws s'. induction vs as [|c vs IH]; intros s ws s' Hrd H; cbn [read_elems] in H.
  - inversion H; subst. simpl. lia.
  - inv_bind H. inv_bind H. cbn [ret] in H. inversion H; subst; clear H.
    apply Hrd in E; [|now left].
    apply IH in E0 as [Hl Hp]; [|intros c' Hc'; apply Hrd; now right].
    cbn [List.length]. split; [now f_equal|]. lia.
Qed.

Lemma go_size_array n e : go_size (TArray n e) = Z.of_nat n * go_size e.
Proof. unfold go_size. simpl. destruct (size_align e). reflexivity. Qed.

Lemma read_ptr_plain gen t cur s v s' :
  plain t = true -> read_ptr_with gen t cur s = (Ok v, s') -> gen cur s = (Ok v, s').
Proof.
  intros Hpl H. destruct (plain_no_methods t Hpl) as [Hr Hv].
  unfold read_ptr_with in H. rewrite Hr in H. inv_bind H.
  unfold validate in H. rewrite Hv in H. cbn [ret] in H. now inversion H; subst.
Qed.

Lemma read_basic_pos b s v s' :
  read_basic b s = (Ok v, s') -> pos s' = pos s + bkind_size b.
Proof.
  intros H.
  destruct b; cbn [read_basic] in H;
    unfold Int8, Int16, Int32, Int64, Float32, Float64 in H; unfold Uint16, Uint32, Uint64 in H;
    inv_bind H; cbn [ret] in H; inversion H; subst; clear H.
  all: try (inv_bind E; cbn [ret] in E; inversion E; subst; clear E).
  all: match goal with
       | E : read_uint _ _ = _ |- _ => apply read_uint_pos in E
       | E : Uint8 _ = _ |- _ => apply uint8_pos in E
       | E : read_bytes _ _ = _ |- _ => apply read_bytes_pos in E as [_ E]
       end.
  all: exact E.
Qed.

Lemma read_generic_plain t : forall fuel cur s v s',
  plain t = true -> shaped t cur -> read_generic fuel t cur s = (Ok v, s') ->
  pos s' = pos s + go_size t.
Proof.
  induction t; intros fuel cur s v s' Hpl Hsh H; try discriminate.
  - destruct fuel as [|f]; [discriminate|]. cbn [read_generic] in H.
    apply read_basic_pos in H. exact H.
  - destruct fuel as [|f]; [discriminate|]. cbn [read_generic] in H.
    destruct cur as [| | | | |vs| | |]; try contradiction. destruct Hsh as [Hn Hf].
    cbn [plain] in Hpl. rewrite go_size_array.
    inv_bind H. cbn [ret] in H. inversion H; subst; clear H.
    apply (read_elems_pos _ (go_size t)) in E as [_ Hp]; [exact Hp|].
    intros c Hc s1 v1 s2 Hr. apply read_ptr_plain in Hr; [|exact Hpl].
    eapply IHt; [exact Hpl| |exact Hr].
    rewrite Forall_forall in Hf. now apply Hf.
Qed.

Lemma zero_shaped t : shaped t (zero_value t).
Proof.
  induction t; simpl; auto.

  split; [apply repeat_length|]. apply Forall_forall. intros x Hx.
    apply repeat_spec in Hx. now subst.
Qed.

(** ReadInterface on a pointer to a scalar, or to an array of scalars or of such arrays, consumes exactly [Type().Size()] bytes. *)
Theorem plain_read_consumes_size t cur s v s' :
  plain t = true -> shaped t cur -> ReadInterface (IPtr t cur) s = (Ok v, s') ->
  pos s' = pos s + go_size t.
Proof.
  intros Hpl Hsh H. cbn [ReadInterface] in H. apply read_ptr_plain in H; [|exact Hpl].
  eapply read_generic_plain; eauto.
Qed.

Lemma read_generic_slice_eq f e cur :
  read_generic (S f) (TSlice e) cur
  = (vs <- read_elems (read_ptr_with (read_generic f e) e) (elems_of cur);; ret (VSlice vs)).
Proof. reflexivity. Qed.

(** A struct field that is a slice of scalars (other than int8) or arrays, whose length resolves to [n], holds [n] elements and consumes [n] times the element size; the recorded size stays [n]. *)
Theorem slice_field_plain_elems f ct cv ft tags n cur s v n' s' :
  kind_of ft = KSlice -> plain (slice_elem ft) = true ->
  kind_of (slice_elem ft) <> KBasic BInt8 ->
  read_field_value (fun t => read_ptr_with (read_generic f t) t) ct cv ft tags n cur s
  = (Ok (v, n'), s') ->
  exists vs, v = VSlice vs /\ n' = n /\ Z.of_nat (List.length vs) = n /\
             pos s' = pos s + n * go_size (slice_elem ft).
Proof.
  intros Hk Hpl Hn8 H. unfold read_field_value in H. rewrite Hk in H.
  destruct (n =? -1); [discriminate|].
  destruct (kind_is_basic (kind_of (slice_elem ft)) BInt8) eqn:Hb.
  { exfalso. apply Hn8. destruct (kind_of (slice_elem ft)) as [b| | | | |]; try discriminate.
    destruct b; try discriminate. reflexivity. }
  destruct (n <? 0) eqn:Hneg; [discriminate|]. apply Z.ltb_ge in Hneg.
  inv_bind H. cbn [ret] in H. inversion H; subst; clear H.
  apply (read_elems_pos _ (go_size (slice_elem ft))) in E as [Hl Hp].
  - exists a. rewrite repeat_length in Hl, Hp. rewrite Z2Nat.id in Hp by lia. rewrite Hl, Z2Nat.id by lia. repeat split; try reflexivity; lia.
  - intros c Hc s1 v1 s2 Hr. apply read_ptr_plain in Hr; [|exact Hpl].
    eapply read_generic_plain; [exact Hpl| |exact Hr].
    apply repeat_spec in Hc. subst. apply zero_shaped.
Qed.

Lemma skipn_pos_succ (l : list Z) p b rest :
  0 <= p -> skipn (Z.to_nat p) l = b :: rest -> skipn (Z.to_nat (p + 1)) l = rest.
Proof.
  intros Hp H. replace (Z.to_nat (p + 1)) with (1 + Z.to_nat p)%nat by lia.
  rewrite <- skipn_skipn, H. reflexivity.
Qed.

Lemma skipn_len_bound (l : list Z) p r :
  0 <= p -> skipn (Z.to_nat p) l = r -> r <> [] ->
  Z.of_nat (List.length l) - p = Z.of_nat (List.length r).
Proof.
  intros Hp H Hr. subst r. rewrite length_skipn.
  destruct (Nat.le_gt_cases (List.length l) (Z.to_nat p)) as [Hle|Hgt].
  - exfalso. apply Hr. now apply skipn_all2.
  - lia.
Qed.

Lemma uint8_next s b rest :
  0 <= pos s -> skipn (Z.to_nat (pos s)) (src s) = b :: rest ->
  Uint8 s = (Ok b, set_pos (pos s + 1) (log (EvRead 1) s)).
Proof.
  intros Hp H. unfold Uint8, bind.
  pose proof (skipn_len_bound _ _ _ Hp H ltac:(discriminate)) as Hl. cbn [List.length] in Hl.
  rewrite read_bytes_ok by lia. rewrite H. reflexivity.
Qed.

Lemma cstring_iter_found p : forall q fuel i mx acc s,
  ~ In 0 p -> 0 <= pos s -> skipn (Z.to_nat (pos s)) (src s) = p ++ 0 :: q ->
  i + Z.of_nat (List.length p) < mx -> (List.length p < fuel)%nat ->
  exists s', cstring_iter fuel i mx acc s
             = (Ok (acc ++ p, Some (i + Z.of_nat (List.length p) + 1)), s') /\
             pos s' = pos s + Z.of_nat (List.length p) + 1 /\ src s' = src s.
Proof.
  induction p as [|b p IH]; intros q fuel i mx acc s Hn Hp Hs Hi Hf;
    destruct fuel as [|f]; try (cbn in Hf; lia); cbn [cstring_iter].
  - replace (i <? mx) with true by (symmetry; apply Z.ltb_lt; cbn in Hi; lia).
    unfold bind. rewrite (uint8_next s 0 q Hp Hs). cbn.
    eexists. rewrite app_nil_r. unfold ret. rewrite Z.add_0_r. split; [reflexivity|]. simpl. split; [lia|reflexivity].
  - cbn [List.length] in *.
    replace (i <? mx) with true by (symmetry; apply Z.ltb_lt; lia).
    unfold bind. rewrite (uint8_next s b (p ++ 0 :: q) Hp Hs).
    replace (b =? 0) with false by (symmetry; apply Z.eqb_neq; intros ->; apply Hn; now left).
    edestruct (IH q f (i + 1) mx (acc ++ [b]) (set_pos (pos s + 1) (log (EvRead 1) s)))
      as [s' [Hr [Hps Hsrc]]].
    + intros Hin. apply Hn. now right.
    + simpl. lia.
    + simpl. now apply (skipn_pos_succ _ _ b).
    + lia.
    + lia.
    + exists s'. rewrite Hr. rewrite <- app_assoc. cbn [app] in *.
      replace (i + Z.of_nat (S (List.length p)) + 1) with (i + 1 + Z.of_nat (List.length p) + 1) by lia.
      split; [reflexivity|]. simpl in Hps, Hsrc. split; [lia|exact Hsrc].
Qed.

Lemma read_bytes_eof n s :
  0 < n -> Z.of_nat (List.length (src s)) <= pos s ->
  read_bytes n s = (Fail ErrEOF, log (EvRead n) s).
Proof.
  intros Hn Hl. unfold read_bytes.
  replace (n <? 0) with false by (symmetry; apply Z.ltb_ge; lia).
  replace (n =? 0) with false by (symmetry; apply Z.eqb_neq; lia).
  now replace (_ <=? 0) with true by (symmetry; apply Z.leb_le; lia).
Qed.

Lemma cstring_iter_max p : forall q fuel i mx acc s,
  ~ In 0 p -> 0 <= pos s -> skipn (Z.to_nat (pos s)) (src s) = p ++ q ->
  i + Z.of_nat (List.length p) = mx -> (List.length p < fuel)%nat ->
  exists s', cstring_iter fuel i mx acc s = (Ok (acc ++ p, None), s') /\
             pos s' = pos s + Z.of_nat (List.length p).
Proof.
  induction p as [|b p IH]; intros q fuel i mx acc s Hn Hp Hs Hi Hf;
    destruct fuel as [|f]; try (cbn in Hf; lia); cbn [cstring_iter].
  - replace (i <? mx) with false by (symmetry; apply Z.ltb_ge; cbn in Hi; lia).
    exists s. rewrite app_nil_r. split; [reflexivity|simpl; lia].
  - cbn [List.length] in *.
    replace (i <? mx) with true by (symmetry; apply Z.ltb_lt; lia).
    unfold bind. rewrite (uint8_next s b (p ++ q) Hp Hs).
    replace (b =? 0) with false by (symmetry; apply Z.eqb_neq; intros ->; apply Hn; now left).
    edestruct (IH q f (i + 1) mx (acc ++ [b]) (set_pos (pos s + 1) (log (EvRead 1) s)))
      as [s' [Hr Hps]].
    + intros Hin. apply Hn. now right.
    + simpl. lia.
    + simpl. now apply (skipn_pos_succ _ _ b).
    + lia.
    + lia.
    + exists s'. rewrite Hr. rewrite <- app_assoc. split; [reflexivity|]. simpl in Hps. lia.
Qed.

Lemma cstring_iter_eof p : forall fuel i mx acc s,
  ~ In 0 p -> 0 <= pos s -> skipn (Z.to_nat (pos s)) (src s) = p ->
  i + Z.of_nat (List.length p) < mx -> (List.length p < fuel)%nat ->
  exists s', cstring_iter fuel i mx acc s = (Fail ErrEOF, s').
Proof.
  induction p as [|b p IH]; intros fuel i mx acc s Hn Hp Hs Hi Hf;
    destruct fuel as [|f]; try (cbn in Hf; lia); cbn [cstring_iter].
  - replace (i <? mx) with true by (symmetry; apply Z.ltb_lt; cbn in Hi; lia).
    unfold Uint8, bind; cbv beta. rewrite read_bytes_eof; [eexists; reflexivity|lia|].
    rewrite <- (firstn_skipn (Z.to_nat (pos s)) (src s)), Hs, app_nil_r, length_firstn. lia.
  - cbn [List.length] in *.
    replace (i <? mx) with true by (symmetry; apply Z.ltb_lt; lia).
    unfold bind. rewrite (uint8_next s b p Hp Hs).
    replace (b =? 0) with false by (symmetry; apply Z.eqb_neq; intros ->; apply Hn; now left).
    apply (IH f (i + 1) mx (acc ++ [b]) (set_pos (pos s + 1) (log (EvRead 1) s))).
    + intros Hin. apply Hn. now right.
    + simpl. lia.
    + simpl. now apply (skipn_pos_succ _ _ b).
    + lia.
    + lia.
Qed.

Lemma cstring_fuel s r :
  0 <= pos s -> skipn (Z.to_nat (pos s)) (src s) = r ->
  (List.length r < S (Z.to_nat (Z.of_nat (List.length (src s)) - pos s)))%nat.
Proof.
  intros Hp Hs. subst r. rewrite length_skipn. lia.
Qed.

Lemma read_generic_string_eq f cur :
  read_generic (S f) TString cur = (res <- cstring_loop MaxInt32;; ret (VString (fst res))).
Proof. reflexivity. Qed.

(** ReadInterface on a pointer to a string reads byte by byte up to the first null byte, consumes it, and holds the bytes before it. *)
Theorem string_reads_to_nul cur s p q :
  0 <= pos s -> skipn (Z.to_nat (pos s)) (src s) = p ++ 0 :: q -> ~ In 0 p ->
  Z.of_nat (List.length p) < MaxInt32 ->
  exists s', ReadInterface (IPtr TString cur) s = (Ok (VString p), s') /\
             pos s' = pos s + Z.of_nat (List.length p) + 1.
Proof.
  intros Hp Hs Hn Hm. cbn [ReadInterface ty_depth]. unfold read_ptr_with. cbn [ptr_read].
  rewrite read_generic_string_eq. unfold bind, cstring_loop; cbv beta.
  pose proof (cstring_fuel s _ Hp Hs) as Hf. rewrite length_app in Hf. cbn [List.length] in Hf.
  edestruct (cstring_iter_found p q (S (Z.to_nat (Z.of_nat (List.length (src s)) - pos s)))
               0 MaxInt32 [] s Hn Hp Hs) as [s' [Hr [Hps _]]]; [lia|lia|].
  rewrite Hr. exists s'. cbv beta iota. split; [reflexivity|lia].
Qed.

(** ReadInterface on a pointer to a string fails with [io.EOF] when no null byte is left before the end of the source. *)
Theorem string_without_nul_eof cur s p :
  0 <= pos s -> skipn (Z.to_nat (pos s)) (src s) = p -> ~ In 0 p ->
  Z.of_nat (List.length p) < MaxInt32 ->
  fst (ReadInterface (IPtr TString cur) s) = Fail ErrEOF.
Proof.
  intros Hp Hs Hn Hm. cbn [ReadInterface ty_depth]. unfold read_ptr_with. cbn [ptr_read].
  rewrite read_generic_string_eq. unfold bind, cstring_loop; cbv beta.
  pose proof (cstring_fuel s _ Hp Hs) as Hf.
  edestruct (cstring_iter_eof p (S (Z.to_nat (Z.of_nat (List.length (src s)) - pos s)))
               0 MaxInt32 [] s Hn Hp Hs) as [s' Hr]; [lia|lia|].
  rewrite Hr. reflexivity.
Qed.

(** A string field without a length reads up to the first null byte found within [max] bytes, holds the bytes before it, and records as size the bytes consumed, the null byte included. *)
Theorem string_field_to_nul rp ct cv ft tags size cur s mx p q :
  kind_of ft = KString -> size < 0 -> fst (max_step ct cv tags s) = Ok mx ->
  0 <= pos s -> skipn (Z.to_nat (pos s)) (src s) = p ++ 0 :: q -> ~ In 0 p ->
  Z.of_nat (List.length p) < mx ->
  exists s', read_field_value rp ct cv ft tags size cur s
             = (Ok (VString p, Z.of_nat (List.length p) + 1), s') /\
             pos s' = pos s + Z.of_nat (List.length p) + 1.
Proof.
  intros Hk Hsz Hmx Hp Hs Hn Hm. unfold read_field_value. rewrite Hk.
  replace (0 <=? size) with false by (symmetry; apply Z.leb_gt; exact Hsz).
  pose proof (max_step_state ct cv tags s) as Hst.
  destruct (max_step ct cv tags s) as [o s1] eqn:Emx. simpl in Hmx, Hst. subst o s1.
  unfold bind, cstring_loop; cbv beta. rewrite Emx; cbv beta iota.
  pose proof (cstring_fuel s _ Hp Hs) as Hf. rewrite length_app in Hf. cbn [List.length] in Hf.
  edestruct (cstring_iter_found p q (S (Z.to_nat (Z.of_nat (List.length (src s)) - pos s)))
               0 mx [] s Hn Hp Hs) as [s' [Hr [Hps _]]]; [lia|lia|].
  rewrite Hr. exists s'. cbv beta iota. split; [reflexivity|lia].
Qed.

(** A string field without a length whose next [max] bytes hold no null byte reads exactly [max] bytes, holds them, and leaves the size at its negative value. *)
Theorem string_field_max_reached rp ct cv ft tags size cur s mx p q :
  kind_of ft = KString -> size < 0 -> fst (max_step ct cv tags s) = Ok mx ->
  0 <= pos s -> skipn (Z.to_nat (pos s)) (src s) = p ++ q -> ~ In 0 p ->
  Z.of_nat (List.length p) = mx ->
  exists s', read_field_value rp ct cv ft tags size cur s = (Ok (VString p, size), s') /\
             pos s' = pos s + mx.
Proof.
  intros Hk Hsz Hmx Hp Hs Hn Hm. unfold read_field_value. rewrite Hk.
  replace (0 <=? size) with false by (symmetry; apply Z.leb_gt; exact Hsz).
  pose proof (max_step_state ct cv tags s) as Hst.
  destruct (max_step ct cv tags s) as [o s1] eqn:Emx. simpl in Hmx, Hst. subst o s1.
  unfold bind, cstring_loop; cbv beta. rewrite Emx; cbv beta iota.
  pose proof (cstring_fuel s _ Hp Hs) as Hf. rewrite length_app in Hf.
  edestruct (cstring_iter_max p q (S (Z.to_nat (Z.of_nat (List.length (src s)) - pos s)))
               0 mx [] s Hn Hp Hs) as [s' [Hr Hps]]; [lia|lia|].
  rewrite Hr. exists s'. cbv beta iota. split; [reflexivity|lia].
Qed.

Lemma cond_step_absent ct cv tags s :
  tag_get "if" tags = ""%string -> cond_step ct cv tags s = (Ok true, s).
Proof. intros H. unfold cond_step. now rewrite H. Qed.

Lemma skip_step_absent ct cv tags s :
  tag_get "skip" tags = ""%string -> skip_step ct cv tags s = (Ok tt, s).
Proof. intros H. unfold skip_step. now rewrite H. Qed.

Lemma align_step_absent ct cv tags size s :
  tag_get "align" tags = ""%string -> align_step ct cv tags size s = (Ok tt, s).
Proof. intros H. unfold align_step. now rewrite H. Qed.

Lemma read_bytes_exact n s data rest :
  0 <= n -> 0 <= pos s -> skipn (Z.to_nat (pos s)) (src s) = data ++ rest ->
  Z.of_nat (List.length data) = n ->
  exists s', read_bytes n s = (Ok data, s') /\ pos s' = pos s + n.
Proof.
  intros Hn Hp Hs Hl. destruct (Z.eq_dec n 0) as [->|Hn0].
  - destruct data; [|cbn in Hl; lia]. exists s. split; [reflexivity|lia].
  - assert (Hlen : pos s + n <= Z.of_nat (List.length (src s))).
    { pose proof (f_equal (@List.length Z) Hs) as E. rewrite length_skipn, length_app in E. lia. }
    rewrite read_bytes_ok by lia. rewrite Hs.
    replace (Z.to_nat n) with (List.length data + 0)%nat by lia.
    rewrite firstn_app_2, firstn_O, app_nil_r. eexists; split; [reflexivity|simpl; lia].
Qed.

(** A string field tagged [length:"uint8"] (and no [if], [skip] or [align]) reads a one-byte length [n], then exactly [n] bytes, and holds them cut at the first null byte. *)
Theorem length_prefixed_string rp all i name ft tags vals s n data rest :
  kind_of ft = KString ->
  tag_get "if" tags = ""%string -> tag_get "skip" tags = ""%string ->
  tag_get "length" tags = "uint8"%string -> tag_get "align" tags = ""%string ->
  0 <= pos s -> skipn (Z.to_nat (pos s)) (src s) = n :: data ++ rest ->
  Z.of_nat (List.length data) = n ->
  exists s', struct_field rp all i (Field name ft tags) vals s
             = (Ok (set_nth i (VString (truncate_at_nul data)) vals), s') /\
             pos s' = pos s + 1 + n.
Proof.
  intros Hk Hif Hsk Hlen Hal Hp Hs Hl.
  assert (Hs1 : skipn (Z.to_nat (pos s + 1)) (src s) = data ++ rest)
    by exact (skipn_pos_succ _ _ n _ Hp Hs).
  destruct (read_bytes_exact n (set_pos (pos s + 1) (log (EvRead 1) s)) data rest)
    as [s2 [Hr Hp2]]; [lia|simpl; lia|exact Hs1|exact Hl|].
  unfold struct_field, bind; cbv beta.
  rewrite cond_step_absent by exact Hif. cbv beta iota. cbn [negb].
  rewrite skip_step_absent by exact Hsk. cbv beta iota.
  unfold length_step. rewrite Hlen. cbn [String.eqb Ascii.eqb Bool.eqb].
  unfold bind; cbv beta. rewrite (uint8_next s n (data ++ rest) Hp Hs).
  cbv beta iota delta [ret].
  unfold read_field_value. rewrite Hk.
  replace (0 <=? n) with true by (symmetry; apply Z.leb_le; lia).
  unfold bind; cbv beta. rewrite Hr. cbv beta iota delta [ret]. cbv beta iota.
  rewrite align_step_absent by exact Hal. cbv beta iota.
  exists s2. split; [reflexivity|simpl in Hp2; lia].
Qed.



(** For a positive alignment [a] and a non-negative size, the [align] padding lies between 0 and [a]; it is below [a] when the size is positive, and a zero size pads a full [a] bytes. *)
Theorem align_padding_bounds size a :
  0 <= size < 2 ^ 62 -> 0 < a < 2 ^ 62 ->
  0 <= align_seek size a <= a /\
  (0 < size -> align_seek size a < a) /\
  (size = 0 -> align_seek size a = a).
Proof.
  intros Hs Ha. unfold align_seek.
  destruct (a <? size) eqn:H1; [apply Z.ltb_lt in H1|apply Z.ltb_ge in H1].
  - rewrite (wrap64_id (a - 1)) by lia.
    rewrite (wrap64_id (size + (a - 1))) by lia.
    rewrite ldiff_sub.
    pose proof (land_bound (size + (a - 1)) (a - 1) ltac:(lia)).
    rewrite wrap64_id by lia. lia.
  - destruct (size <? a) eqn:H2; [apply Z.ltb_lt in H2|apply Z.ltb_ge in H2].
    + rewrite wrap64_id by lia. lia.
    + lia.
Qed.

Lemma take_while_all p s : forallb p (fst (Peg.take_while p s)) = true.
Proof.
  induction s as [|c s IH]; simpl; [reflexivity|].
  destruct (p c) eqn:E; [|reflexivity].
  destruct (Peg.take_while p s) as [a b]. simpl in *. now rewrite E, IH.
Qed.

Lemma identifier_ok s id r : Peg.identifier s = Some (id, r) -> ident_ok id.
Proof.
  unfold Peg.identifier. destruct s as [|c s]; [discriminate|].
  destruct (Peg.is_upper c) eqn:Hu; [|discriminate].
  pose proof (take_while_all Peg.is_ident_char s) as Ha.
  destruct (Peg.take_while Peg.is_ident_char s) as [a b]. intros H; inversion H; subst.
  unfold ident_ok. cbn [string_of_list_ascii list_ascii_of_string].
  rewrite list_ascii_of_string_of_list_ascii. now split.
Qed.

Lemma dot_rest_ok n s : Forall ident_ok (fst (Peg.dot_rest n s)).
Proof.
  revert s. induction n as [|n IH]; intros s; [constructor|].
  destruct s as [|c s]; [constructor|].
  destruct (Ascii.eqb c "."%char) eqn:Ec.
  - apply Ascii.eqb_eq in Ec. subst c. cbn [Peg.dot_rest].
    destruct (Peg.identifier s) as [[id r']|] eqn:Hi; [|constructor].
    specialize (IH r'). destruct (Peg.dot_rest n r') as [ids r'']. simpl in *.
    constructor; [eapply identifier_ok; eauto|exact IH].
  - destruct c as [[] [] [] [] [] [] [] []]; cbn [Peg.dot_rest]; try constructor;
      discriminate.
Qed.

Lemma constant_ok s e r : Peg.constant s = Some (e, r) -> paths_ok e.
Proof.
  unfold Peg.constant. intros H.
  assert (Hdec : match Peg.take_while Peg.is_digit s with
                 | ([], _) => None
                 | (d, r'0) => Some (EConst (wrap64 (Peg.digits_val 10 d)), r'0)
                 end = Some (e, r) -> paths_ok e).
  { destruct (Peg.take_while Peg.is_digit s) as [[|d ds] r1]; [discriminate|].
    intros H1; inversion H1; subst. exact I. }
  destruct s as [|c0 s0]; [now apply Hdec|].
  destruct (ascii_dec c0 "0"%char) as [->|Hc0].
  - destruct s0 as [|c1 s1]; [now apply Hdec|].
    destruct (ascii_dec c1 "x"%char) as [->|Hc1].
    + destruct (Peg.take_while Peg.is_hex s1) as [[|h hs] r1] eqn:Eh.
      * now apply Hdec.
      * inversion H; subst. exact I.
    + replace (match c1 with
               | "x"%char => _ | _ => None end) with (@None (expr * Peg.chars)) in H.
      * now apply Hdec.
      * destruct c1 as [[] [] [] [] [] [] [] []]; try reflexivity; congruence.
  - replace (match c0 with
             | "0"%char => _ | _ => None end) with (@None (expr * Peg.chars)) in H.
    + now apply Hdec.
    + destruct c0 as [[] [] [] [] [] [] [] []]; try reflexivity; congruence.
Qed.

Lemma dot_identifier_ok s e r : Peg.dot_identifier s = Some (e, r) -> paths_ok e.
Proof.
  unfold Peg.dot_identifier. destruct (Peg.identifier s) as [[id r0]|] eqn:E; [|discriminate].
  pose proof (dot_rest_ok (List.length r0) r0) as Hd.
  destruct (Peg.dot_rest (List.length r0) r0) as [ids r']. intros H; inversion H; subst.
  simpl in *. constructor; [eapply identifier_ok; eauto|exact Hd].
Qed.

Lemma grouping_ok op s e r :
  (forall s' e' r', op s' = Some (e', r') -> paths_ok e') ->
  Peg.grouping op s = Some (e, r) -> paths_ok e.
Proof.
  intros Hop. unfold Peg.grouping.
  destruct (match Peg.spacing s with
            | c :: r0 =>
                if (c =? "(")%char then
                  match op r0 with
                  | Some (e0, d :: r2) => if (d =? ")")%char then Some (e0, r2) else None
                  | _ => None
                  end
                else None
            | [] => None
            end) as [[e1 r1]|] eqn:Ep.
  - intros H; inversion H; subst.
    destruct (Peg.spacing s) as [|c r0]; [discriminate|].
    destruct (c =? "(")%char; [|discriminate].
    destruct (op r0) as [[e0 [|d r2]]|] eqn:Eo; try discriminate.
    destruct (d =? ")")%char; [|discriminate]. inversion Ep; subst. eapply Hop; eauto.
  - destruct (Peg.constant (Peg.spacing s)) as [[e1 r1]|] eqn:Ec.
    + intros H; inversion H; subst. eapply constant_ok; eauto.
    + destruct (Peg.dot_identifier (Peg.spacing s)) as [[e1 r1]|] eqn:Ed; [|discriminate].
      intros H; inversion H; subst. eapply dot_identifier_ok; eauto.
Qed.

Lemma try_ops_ok g ops s e r :
  (forall s' e' r', g s' = Some (e', r') -> paths_ok e') ->
  Peg.try_ops g ops s = Some (e, r) -> paths_ok e.
Proof.
  intros Hg. induction ops as [|[o tok] ops IH]; simpl; [discriminate|].
  destruct (g s) as [[l r1]|] eqn:E1; [|exact IH].
  destruct (Peg.strip_prefix tok r1) as [r2|]; [|exact IH].
  destruct (g r2) as [[rr r3]|] eqn:E3; [|exact IH].
  intros H; inversion H; subst. split; eapply Hg; eauto.
Qed.

Lemma op_ok fuel : forall s e r, Peg.op fuel s = Some (e, r) -> paths_ok e.
Proof.
  induction fuel as [|f IH]; intros s e r H; [discriminate|].
  cbn [Peg.op] in H. eapply try_ops_ok; [|exact H].
  intros s' e' r'. apply grouping_ok. exact IH.
Qed.

(** Every field path of an accepted expression is made of identifiers that start with an uppercase ASCII letter followed by letters, digits or underscores. *)
Theorem parse_paths_uppercase s e : parse s = Some e -> paths_ok e.
Proof.
  unfold parse, Peg.expression.
  destruct (Peg.op _ _) as [[e1 r1]|] eqn:E1.
  - destruct r1; [|discriminate]. intros H; inversion H; subst. eapply op_ok; eauto.
  - destruct (Peg.grouping _ _) as [[e1 r1]|] eqn:E2; [|discriminate].
    destruct r1; [|discriminate]. intros H; inversion H; subst.
    eapply grouping_ok; [|exact E2]. apply op_ok.
Qed.

(** A [length:"uint64"] prefix is converted to a Go [int]: a prefix of 2^63 or more gives a negative size. *)
Theorem uint64_length_prefix_signed ct cv tags s u s' :
  tag_get "length" tags = "uint64"%string -> 0 <= pos s -> bytes_ok s ->
  Uint64 s = (Ok u, s') ->
  length_step ct cv tags s = (Ok (if u <? 2 ^ 63 then u else u - 2 ^ 64), s').
Proof.
  intros Ht Hp Hb Hu.
  pose proof (read_uint_range 8 s u s' Hp Hb Hu) as Hr. norm_pow.
  unfold length_step. rewrite Ht. cbn [String.eqb Ascii.eqb Bool.eqb].
  unfold bind. rewrite Hu. unfold ret. f_equal. f_equal. unfold wrap64. norm_pow.
  destruct (u <? 9223372036854775808) eqn:E; [apply Z.ltb_lt in E|apply Z.ltb_ge in E].
  - rewrite Z.mod_small; lia.
  - rewrite <- (Z.mod_unique_pos (u + 9223372036854775808) 18446744073709551616 1
                  (u + 9223372036854775808 - 18446744073709551616)); lia.
Qed.

Lemma to_signed_mod w u : 1 <= w -> 0 <= u < 2 ^ w -> to_signed w u mod 2 ^ w = u.
Proof.
  intros Hw Hu. unfold to_signed.
  destruct (u <? 2 ^ (w - 1)); [now apply Z.mod_small|].
  rewrite <- (Z.mod_unique_pos (u - 2 ^ w) (2 ^ w) (-1) u); lia.
Qed.

(** Int8/16/32/64 read the same bytes as Uint8/16/32/64 and reinterpret them in two's complement: the value is in the signed range and equals the unsigned one modulo 2^w. *)
Theorem signed_reads_reinterpret s :
  0 <= pos s -> bytes_ok s ->
  (forall u s', Uint8 s = (Ok u, s') ->
     exists v, Int8 s = (Ok v, s') /\ - 2 ^ 7 <= v < 2 ^ 7 /\ v mod 2 ^ 8 = u) /\
  (forall u s', Uint16 s = (Ok u, s') ->
     exists v, Int16 s = (Ok v, s') /\ - 2 ^ 15 <= v < 2 ^ 15 /\ v mod 2 ^ 16 = u) /\
  (forall u s', Uint32 s = (Ok u, s') ->
     exists v, Int32 s = (Ok v, s') /\ - 2 ^ 31 <= v < 2 ^ 31 /\ v mod 2 ^ 32 = u) /\
  (forall u s', Uint64 s = (Ok u, s') ->
     exists v, Int64 s = (Ok v, s') /\ - 2 ^ 63 <= v < 2 ^ 63 /\ v mod 2 ^ 64 = u).
Proof.
  intros Hp Hb. repeat split; intros u s' H.
  - pose proof (uint8_range s u s' Hp Hb H) as Hr.
    exists (to_signed 8 u). unfold Uint8 in H. unfold Int8.
    unfold bind in *. destruct (read_bytes 1 s) as [[d| |] s1]; try discriminate.
    cbn [ret] in *. inversion H; subst.
    split; [reflexivity|]. split; [apply (to_signed_range 8); norm_pow; lia|].
    apply to_signed_mod; norm_pow; lia.
  - pose proof (read_uint_range 2 s u s' Hp Hb H) as Hr. exists (to_signed 16 u).
    unfold Int16, bind. rewrite H. split; [reflexivity|].
    split; [apply (to_signed_range 16); norm_pow; lia|]. apply to_signed_mod; norm_pow; lia.
  - pose proof (read_uint_range 4 s u s' Hp Hb H) as Hr. exists (to_signed 32 u).
    unfold Int32, bind. rewrite H. split; [reflexivity|].
    split; [apply (to_signed_range 32); norm_pow; lia|]. apply to_signed_mod; norm_pow; lia.
  - pose proof (read_uint_range 8 s u s' Hp Hb H) as Hr. exists (to_signed 64 u).
    unfold Int64, bind. rewrite H. split; [reflexivity|].
    split; [apply (to_signed_range 64); norm_pow; lia|]. apply to_signed_mod; norm_pow; lia.
Qed.

Lemma skipn_set_nth i v vals : skipn (S i) (set_nth i v vals) = skipn (S i) vals.
Proof.
  revert vals. induction i as [|i IH]; intros [|w vals]; try reflexivity.
  cbn [set_nth]. change (skipn (S (S i)) (w :: ?l)) with (skipn (S i) l). apply IH.
Qed.

Lemma plain_kind t : plain t = true ->
  match kind_of t with KString | KSlice => False | _ => True end.
Proof. destruct t; simpl; try discriminate; auto. Qed.

Lemma nth_skipn_cons {A} i (l : list A) d c rest :
  skipn i l = c :: rest -> nth i l d = c.
Proof.
  revert l. induction i as [|i IH]; intros [|x l] H; try discriminate.
  - now inversion H.
  - apply IH. exact H.
Qed.

Lemma skipn_cons_succ {A} i (l : list A) c rest :
  skipn i l = c :: rest -> skipn (S i) l = rest.
Proof.
  intros H. change (S i) with (1 + i)%nat. now rewrite <- skipn_skipn, H.
Qed.

Lemma struct_loop_plain f all fs : forall i vals s vals' s',
  untagged_plain fs = true ->
  Forall2 (fun fd v => shaped (field_ty fd) v) fs (skipn i vals) ->
  struct_loop (fun t => read_ptr_with (read_generic f t) t) all i fs vals s = (Ok vals', s') ->
  pos s' = pos s + fields_size fs.
Proof.
  induction fs as [|[name t tags] fs IH]; intros i vals s vals' s' Hu Hsh H;
    cbn [struct_loop] in H.
  - inversion H; subst. simpl. lia.
  - cbn [untagged_plain forallb] in Hu. destruct tags as [|tg tags]; [|discriminate].
    apply andb_prop in Hu as [Hpl Hu].
    inversion Hsh as [|? c ? rest Hc Hr Eq1 Eq2]; subst. cbn [field_ty] in Hc.
    symmetry in Eq2. pose proof (nth_skipn_cons i vals VOther c rest Eq2) as Hnth.
    inv_bind H.
    unfold struct_field, bind in E; cbv beta in E.
    rewrite cond_step_absent in E by reflexivity. cbv beta iota in E. cbn [negb] in E.
    rewrite skip_step_absent in E by reflexivity. cbv beta iota in E.
    unfold length_step in E. cbv beta iota delta [ret tag_get String.eqb] in E.
    unfold read_field_value in E.
    pose proof (plain_kind t Hpl) as Hk.
    destruct (kind_of t) eqn:Ek; try contradiction.
    all: unfold bind in E; cbv beta in E;
      destruct (read_ptr_with (read_generic f t) t (nth i vals VOther) s) as [[w| |] s1] eqn:Er;
      try discriminate; cbv beta iota delta [ret] in E;
      rewrite align_step_absent in E by reflexivity; cbv beta iota in E;
      inversion E; subst; clear E;
      apply read_ptr_plain in Er; [|exact Hpl];
      apply read_generic_plain in Er; [|exact Hpl|first [assumption|now rewrite Hnth]];
      apply IH in H; [|exact Hu|rewrite skipn_set_nth; now rewrite (skipn_cons_succ _ _ _ _ Eq2)];
      cbn [fields_size fold_right]; unfold fields_size in H; lia.
Qed.

Lemma read_generic_struct_eq f fs cur :
  read_generic (S f) (TStruct fs) cur
  = (vals <- struct_loop (fun t' => read_ptr_with (read_generic f t') t') fs O fs (elems_of cur);;
     ret (VStruct vals)).
Proof. reflexivity. Qed.

(** A struct whose fields are untagged scalars or arrays of them consumes the sum of its fields' sizes: no Go layout padding is skipped between fields. *)
Theorem struct_consumes_field_sizes fs s v s' :
  untagged_plain fs = true ->
  ReadInterface (IPtr (TStruct fs) (zero_value (TStruct fs))) s = (Ok v, s') ->
  pos s' = pos s + fields_size fs.
Proof.
  intros Hu H. cbn [ReadInterface] in H. unfold read_ptr_with in H. cbn [ptr_read] in H.
  inv_bind H. cbv beta iota delta [validate ptr_validate ret] in H. inversion H; subst; clear H.
  cbn [ty_depth] in E. rewrite read_generic_struct_eq in E. inv_bind E. cbn [ret] in E. inversion E; subst; clear E.
  eapply struct_loop_plain; [exact Hu| |exact E0].
  cbn [elems_of zero_value skipn]. clear E0 Hu.
  induction fs as [|[name t tags] fs IH]; constructor; [apply zero_shaped|exact IH].
Qed.

Lemma firstn_add_app {A} (n m : nat) (l : list A) :
  firstn (n + m) l = firstn n l ++ firstn m (skipn n l).
Proof.
  revert l. induction n as [|n IH]; intros [|x l]; simpl; try reflexivity.
  - now rewrite firstn_nil.
  - now rewrite IH.
Qed.
(** [BinaryReader.Read] over a [bytes.Reader]: two consecutive reads of [n] and [m] bytes return, one after the other, the bytes a single read of [n + m] bytes returns, and end at the same offset. *)
Theorem read_bytes_concat n m s :
  0 < n -> 0 < m -> 0 <= pos s -> pos s + n + m <= Z.of_nat (List.length (src s)) ->
  exists d1 d2 s1 s2,
    read_bytes n s = (Ok d1, s1) /\ read_bytes m s1 = (Ok d2, s2) /\
    fst (read_bytes (n + m) s) = Ok (d1 ++ d2) /\
    pos (snd (read_bytes (n + m) s)) = pos s2.
Proof.
  intros Hn Hm Hp Hl.
  rewrite (read_bytes_ok n s) by lia.
  rewrite (read_bytes_ok (n + m) s) by lia.
  set (s1 := set_pos (pos s + n) (log (EvRead n) s)).
  exists (firstn (Z.to_nat n) (skipn (Z.to_nat (pos s)) (src s))).
  exists (firstn (Z.to_nat m) (skipn (Z.to_nat (pos s + n)) (src s))), s1. rewrite (read_bytes_ok m s1) by (simpl; lia).
  eexists. split; [reflexivity|]. split; [reflexivity|].
  cbn [fst snd pos s1 set_pos src log].
  split; [|simpl; lia].
  f_equal. replace (Z.to_nat (n + m)) with (Z.to_nat n + Z.to_nat m)%nat by lia.
  rewrite firstn_add_app, skipn_skipn.
  do 3 f_equal. lia.
Qed.
Lemma read_ptr_byte f c s b rest :
  0 <= pos s -> skipn (Z.to_nat (pos s)) (src s) = b :: rest ->
  read_ptr_with (read_generic (S f) (TBasic BUint8)) (TBasic BUint8) c s
  = (Ok (VUint b), set_pos (pos s + 1) (log (EvRead 1) s)).
Proof.
  intros Hp Hs. unfold read_ptr_with. cbn [ptr_read]. unfold bind.
  cbn [read_generic read_basic]. unfold bind. rewrite (uint8_next s b rest Hp Hs). reflexivity.
Qed.
Lemma read_byte_elems f vs s :
  0 <= pos s -> pos s + Z.of_nat (List.length vs) <= Z.of_nat (List.length (src s)) ->
  exists s',
    read_elems (read_ptr_with (read_generic (S f) (TBasic BUint8)) (TBasic BUint8)) vs s
    = (Ok (map VUint (firstn (List.length vs) (skipn (Z.to_nat (pos s)) (src s)))), s') /\
    pos s' = pos s + Z.of_nat (List.length vs) /\ src s' = src s.
Proof.
  revert s. induction vs as [|v vs IH]; intros s Hp Hl.
  - exists s. split; [reflexivity|]. cbn [List.length]. split; [lia|reflexivity].
  - cbn [List.length] in *.
    destruct (skipn (Z.to_nat (pos s)) (src s)) as [|b rest] eqn:Hs.
    { pose proof (f_equal (@List.length Z) Hs) as E. rewrite length_skipn in E. simpl in E. lia. }
    set (s1 := set_pos (pos s + 1) (log (EvRead 1) s)).
    destruct (IH s1) as [s' [Hr [Hp' Hsrc]]]; [simpl; lia|simpl; lia|].
    exists s'. cbn [read_elems]. unfold bind at 1.
    rewrite (read_ptr_byte f v s b rest Hp Hs). fold s1. cbv beta iota.
    unfold bind. rewrite Hr. cbv beta iota delta [ret].
    assert (Hs1 : skipn (Z.to_nat (pos s1)) (src s1) = rest)
      by (exact (skipn_pos_succ _ _ b rest Hp Hs)).
    rewrite Hs1. split; [reflexivity|]. split; [simpl in Hp'; lia|exact Hsrc].
Qed.
Lemma read_generic_array_eq f n e cur :
  read_generic (S f) (TArray n e) cur
  = (vs <- read_elems (read_ptr_with (read_generic f e) e) (elems_of cur);; ret (VArray vs)).
Proof. reflexivity. Qed.
(** ReadInterface on a pointer to a [[]byte] or a [[n]byte] fills the elements the destination holds, in index order, with the next bytes of the source: element [i] is the byte at offset [pos + i]. *)
Theorem byte_elems_read_in_order vs s :
  0 <= pos s -> pos s + Z.of_nat (List.length vs) <= Z.of_nat (List.length (src s)) ->
  (exists s',
     ReadInterface (IPtr (TSlice (TBasic BUint8)) (VSlice vs)) s
     = (Ok (VSlice (map VUint (firstn (List.length vs) (skipn (Z.to_nat (pos s)) (src s))))), s') /\
     pos s' = pos s + Z.of_nat (List.length vs)) /\
  (exists s',
     ReadInterface (IPtr (TArray (List.length vs) (TBasic BUint8)) (VArray vs)) s
     = (Ok (VArray (map VUint (firstn (List.length vs) (skipn (Z.to_nat (pos s)) (src s))))), s') /\
     pos s' = pos s + Z.of_nat (List.length vs)).
Proof.
  intros Hp Hl. destruct (read_byte_elems O vs s Hp Hl) as [s' [Hr [Hp' _]]].
  split; exists s'; (split; [|exact Hp']); cbn [ReadInterface]; unfold read_ptr_with;
    cbn [ptr_read ty_depth].
  - rewrite read_generic_slice_eq. cbn [elems_of]. unfold bind. rewrite Hr. reflexivity.
  - rewrite read_generic_array_eq. cbn [elems_of]. unfold bind. rewrite Hr. reflexivity.
Qed.
(** For an [align] value [a] that is a power of two and a non-negative size, the size plus the padding is a multiple of [a]: the next field starts on an [a]-byte boundary relative to the field's start. *)
Theorem align_pads_to_multiple size a k :
  0 <= size < 2 ^ 63 -> 0 < a < 2 ^ 63 -> a = 2 ^ k ->
  (size + align_seek size a) mod a = 0.
Proof.
  intros Hs Ha Hk.
  destruct (Z.lt_trichotomy size a) as [Hlt|[Heq|Hgt]].
  - unfold align_seek.
    replace (a <? size) with false by (symmetry; apply Z.ltb_ge; lia).
    replace (size <? a) with true by (symmetry; apply Z.ltb_lt; lia).
    rewrite wrap64_id by lia. replace (size + (a - size)) with (1 * a) by ring.
    apply Z_mod_mult.
  - subst size. unfold align_seek. rewrite Z.ltb_irrefl, Z.add_0_r. apply Z_mod_same_full.
  - rewrite (align_seek_pow2 size a k) by lia. unfold round_up.
    replace (size + ((size + a - 1) / a * a - size)) with ((size + a - 1) / a * a) by ring.
    apply Z_mod_mult.
Qed.
(** An [if] tag that evaluates to a non-zero value has no other effect: the field decodes exactly as it does without the tag. *)
Theorem if_true_is_transparent rp all i name ft tags tags' vals s e c :
  same_tags_but "if" tags tags' ->
  parse (tag_get "if" tags) = Some e -> eval (TStruct all) (VStruct vals) e = Some c -> c <> 0 ->
  struct_field rp all i (Field name ft tags) vals s
  = struct_field rp all i (Field name ft tags') vals s.
Proof.
  intros [Hif' Hk] Hp He Hc.
  assert (Hne : String.eqb (tag_get "if" tags) "" = false).
  { apply String.eqb_neq. intros E. rewrite E in Hp. discriminate. }
  unfold struct_field, cond_step, skip_step, length_step, read_field_value, max_step,
    align_step.
  rewrite Hne, Hif'. cbn [String.eqb].
  unfold eval_tag at 1. rewrite Hp, He.
  cbv beta iota delta [bind ret].
  destruct (c =? 0) eqn:Ec; [apply Z.eqb_eq in Ec; contradiction|]. cbn [negb].
  rewrite <- (Hk "skip"%string), <- (Hk "length"%string), <- (Hk "max"%string),
    <- (Hk "align"%string) by discriminate.
  reflexivity.
Qed.
Lemma eval_tag_ok ct cv t e k :
  parse t = Some e -> eval ct cv e = Some k -> eval_tag ct cv t = ret k.
Proof. intros Hp He. unfold eval_tag. now rewrite Hp, He. Qed.
(** A [skip] tag evaluating to [k] (the field having no [if] tag, and the offset staying non-negative) seeks by [k] and then decodes the field exactly as it does without the tag, from the new offset. *)
Theorem skip_seeks_then_reads rp all i name ft tags tags' vals s e k :
  same_tags_but "skip" tags tags' -> tag_get "if" tags = ""%string ->
  parse (tag_get "skip" tags) = Some e -> eval (TStruct all) (VStruct vals) e = Some k ->
  0 <= pos s + k ->
  struct_field rp all i (Field name ft tags) vals s
  = struct_field rp all i (Field name ft tags') vals (set_pos (pos s + k) (log (EvSeek k) s)).
Proof.
  intros [Hsk' Hk] Hif Hp He Hpos.
  assert (Hne : String.eqb (tag_get "skip" tags) "" = false).
  { apply String.eqb_neq. intros E. rewrite E in Hp. discriminate. }
  unfold struct_field, cond_step, skip_step, length_step, read_field_value, max_step,
    align_step.
  rewrite (Hk "if"%string) by discriminate. rewrite Hif, Hne, Hsk'. cbn [String.eqb].
  rewrite (eval_tag_ok _ _ _ e k Hp He).
  cbv beta iota zeta delta [bind ret seek negb].
  replace (pos s + k <? 0) with false by (symmetry; apply Z.ltb_ge; lia).
  rewrite <- (Hk "length"%string), <- (Hk "max"%string), <- (Hk "align"%string) by discriminate.
  reflexivity.
Qed.

(** ** Instances of the theorems above at concrete inputs *)

Local Open Scope string_scope.

Lemma C2_align_size_witness :
  read_field_value (fun t => read_ptr_with (read_generic 3 t) t) AlignedWords
    (zero_value AlignedWords) (TSlice (TBasic BUint16)) [("length", "2"); ("align", "4")]
    2 (VSlice []) (reader_at [1; 2; 3; 4])
  = (Ok (VSlice [VUint 513; VUint 1027], 2),
     mkst [1; 2; 3; 4] 4 LittleEndian [EvRead 2; EvRead 2]) /\ 2 = 2.
Proof.
  assert (H : read_field_value (fun t => read_ptr_with (read_generic 3 t) t) AlignedWords
    (zero_value AlignedWords) (TSlice (TBasic BUint16)) [("length", "2"); ("align", "4")]
    2 (VSlice []) (reader_at [1; 2; 3; 4])
    = (Ok (VSlice [VUint 513; VUint 1027], 2),
       mkst [1; 2; 3; 4] 4 LittleEndian [EvRead 2; EvRead 2])) by (vm_compute; reflexivity).
  split; [exact H|].
  exact (C2_align_size _ _ _ _ _ _ _ _ _ _ _ H).
Defined.

Lemma C3_seek_offsets_witness :
  trace (snd (skip_step SkipBack (VStruct [VUint 67305985; VUint 0]) [("skip", "0-4")]
                (mkst [1; 2; 3; 4] 4 LittleEndian [EvRead 4])))
  = [EvRead 4; EvSeek (-4)].
Proof.
  apply (proj2 C3_seek_offsets SkipBack (VStruct [VUint 67305985; VUint 0]) [("skip", "0-4")]
           (mkst [1; 2; 3; 4] 4 LittleEndian [EvRead 4]) (-4)).
  - discriminate.
  - vm_compute. reflexivity.
Defined.

Lemma C5_align_padding_witness :
  align_seek 3 4 = 4 - 3 /\ align_seek (-1) 4 = 4 - (-1) /\ align_seek 4 4 = 0 /\
  align_seek 5 4 = round_up 5 4 - 5.
Proof.
  split; [|split; [|split]].
  - apply (proj1 (proj2 (C5_align_padding 3 4 ltac:(lia) ltac:(lia)))); lia.
  - apply (proj1 (proj2 (C5_align_padding (-1) 4 ltac:(lia) ltac:(lia)))); lia.
  - apply (proj1 (proj2 (proj2 (C5_align_padding 4 4 ltac:(lia) ltac:(lia))))). reflexivity.
  - apply (proj1 (proj2 (proj2 (proj2 (proj2 (C5_align_padding 5 4 ltac:(lia) ltac:(lia))))))
      ltac:(lia) 2). reflexivity.
Defined.

Lemma C6_absent_fields_consume_nothing_witness :
  ReadInterface (IPtr AllAbsent (VStruct [VUint 0; VUint 0])) (reader_at [1; 2; 3; 4])
  = (Ok (VStruct [VUint 0; VUint 0]), reader_at [1; 2; 3; 4]).
Proof.
  apply (proj2 C6_absent_fields_consume_nothing).
  intros n t g [H|[H|[]]]; injection H as <- <- <-.
  - exists (EConst 0). split; reflexivity.
  - exists (EBin Eq (EPath ["A"]) (EConst 1)). split; reflexivity.
Defined.

Lemma C7_fixed_length_string_witness :
  exists s',
    read_field_value (fun t => read_ptr_with (read_generic 3 t) t) FixedName
      (zero_value FixedName) TString [("length", "8")] 8 (VString [])
      (reader_at (bytes_of "abc" ++ [0] ++ bytes_of "xxxx"))
    = (Ok (VString (bytes_of "abc"), 8), s').
Proof.
  destruct (proj1 C7_fixed_length_string (fun t => read_ptr_with (read_generic 3 t) t) FixedName
              (zero_value FixedName) TString [("length", "8")] 8 (VString [])
              (reader_at (bytes_of "abc" ++ [0] ++ bytes_of "xxxx"))
              eq_refl ltac:(lia) ltac:(simpl; lia) ltac:(vm_compute; discriminate))
    as [_ [s' [H _]]].
  exists s'. exact H.
Defined.

Lemma C8_no_implicit_precedence_witness :
  In "("%char (list_ascii_of_string "(1+2)+3").
Proof.
  apply (proj2 (proj2 C8_no_implicit_precedence) "(1+2)+3"
           (EBin Add (EBin Add (EConst 1) (EConst 2)) (EConst 3))).
  - reflexivity.
  - simpl. lia.
Defined.

Lemma C9_custom_reader_before_pointer_check_witness :
  ReadInterface (IPtr Checked (VStruct [])) (reader_at [])
  = call_read PtrRecv (fun v s => (None, v, s)) (VStruct []) (reader_at []) /\
  ReadInterface (IVal ValueReader (VUint 3)) (reader_at [7])
  = (Ok (VUint 3), mkst [7] 1 LittleEndian [EvRead 1]) /\
  ReadInterface (IVal FixedName (VStruct [VString []])) (reader_at [])
  = (Fail (ErrNotPointer KStruct), reader_at []).
Proof.
  split; [|split].
  - apply (proj1 C9_custom_reader_before_pointer_check). reflexivity.
  - rewrite (proj1 (proj2 C9_custom_reader_before_pointer_check) ValueReader _ _ _ eq_refl).
    vm_compute. reflexivity.
  - apply (proj2 (proj2 C9_custom_reader_before_pointer_check) FixedName). reflexivity.
Defined.

Lemma C10_int8_slice_panics_witness :
  fst (read_field_value (fun t => read_ptr_with (read_generic 3 t) t) SignedBlock
         (zero_value SignedBlock) (TSlice (TBasic BInt8)) [("length", "2")] 2 (VSlice [])
         (reader_at [1; 2; 3; 4]))
  = Panic "reflect.Set: value of type []uint8 is not assignable to type []int8".
Proof.
  rewrite (C10_int8_slice_panics (fun t => read_ptr_with (read_generic 3 t) t) SignedBlock
             (zero_value SignedBlock) (TSlice (TBasic BInt8)) [("length", "2")] 2 (VSlice [])
             (reader_at [1; 2; 3; 4]) eq_refl eq_refl ltac:(lia) ltac:(simpl; lia)
             ltac:(simpl; lia)).
  reflexivity.
Defined.

Ltac bytes_in_range := unfold bytes_ok; cbn [src reader_at];
  repeat (apply Forall_cons; [lia|]); apply Forall_nil.

Ltac not_in := let H := fresh in intro H; repeat (destruct H as [H|H]; [lia|]); contradiction.

Lemma read_basic_fits_witness :
  fits BInt16 (VInt (-1)) /\
  pos (mkst [255; 255] 2 LittleEndian [EvRead 2]) = pos (reader_at [255; 255]) + bkind_size BInt16.
Proof.
  apply (read_basic_fits BInt16 (reader_at [255; 255]) (VInt (-1))
           (mkst [255; 255] 2 LittleEndian [EvRead 2])).
  - simpl. lia.
  - bytes_in_range.
  - vm_compute. reflexivity.
Defined.

Lemma plain_read_consumes_size_witness :
  pos (mkst [1; 2; 3; 4] 4 LittleEndian [EvRead 2; EvRead 2])
  = pos (reader_at [1; 2; 3; 4]) + go_size (TArray 2 (TBasic BUint16)).
Proof.
  apply (plain_read_consumes_size (TArray 2 (TBasic BUint16))
           (zero_value (TArray 2 (TBasic BUint16))) (reader_at [1; 2; 3; 4])
           (VArray [VUint 513; VUint 1027])).
  - reflexivity.
  - simpl. split; [reflexivity|]. repeat constructor.
  - vm_compute. reflexivity.
Defined.

Lemma slice_field_plain_elems_witness :
  exists vs, VSlice [VUint 513; VUint 1027] = VSlice vs /\ 2 = 2 /\
             Z.of_nat (List.length vs) = 2 /\
             pos (mkst [1; 2; 3; 4] 4 LittleEndian [EvRead 2; EvRead 2])
             = pos (reader_at [1; 2; 3; 4]) + 2 * go_size (slice_elem (TSlice (TBasic BUint16))).
Proof.
  apply (slice_field_plain_elems 2 AlignedWords (zero_value AlignedWords)
           (TSlice (TBasic BUint16)) [] 2 (VSlice []) (reader_at [1; 2; 3; 4])).
  - reflexivity.
  - reflexivity.
  - discriminate.
  - vm_compute. reflexivity.
Defined.

Lemma string_reads_to_nul_witness :
  exists s', ReadInterface (IPtr TString (VString [])) (reader_at [97; 98; 0; 7])
             = (Ok (VString [97; 98]), s') /\ pos s' = 3.
Proof.
  destruct (string_reads_to_nul (VString []) (reader_at [97; 98; 0; 7]) [97; 98] [7])
    as [s' [H Hp]].
  - simpl. lia.
  - reflexivity.
  - not_in.
  - unfold MaxInt32. simpl. lia.
  - exists s'. split; [exact H|]. rewrite Hp. reflexivity.
Defined.

Lemma string_without_nul_eof_witness :
  fst (ReadInterface (IPtr TString (VString [])) (reader_at [97; 98])) = Fail ErrEOF.
Proof.
  apply (string_without_nul_eof (VString []) (reader_at [97; 98]) [97; 98]).
  - simpl. lia.
  - reflexivity.
  - not_in.
  - unfold MaxInt32. simpl. lia.
Defined.

Lemma string_field_to_nul_witness :
  exists s', read_field_value (fun t => read_ptr_with (read_generic 3 t) t)
               (TStruct [Field "S" TString []]) (VStruct [VString []]) TString [] (-1)
               (VString []) (reader_at [97; 0; 5])
             = (Ok (VString [97], 2), s') /\ pos s' = 2.
Proof.
  destruct (string_field_to_nul (fun t => read_ptr_with (read_generic 3 t) t)
              (TStruct [Field "S" TString []]) (VStruct [VString []]) TString [] (-1)
              (VString []) (reader_at [97; 0; 5]) MaxInt32 [97] [5])
    as [s' [H Hp]].
  - reflexivity.
  - lia.
  - reflexivity.
  - simpl. lia.
  - reflexivity.
  - not_in.
  - unfold MaxInt32. simpl. lia.
  - exists s'. split; [exact H|]. rewrite Hp. reflexivity.
Defined.

Lemma string_field_max_reached_witness :
  exists s', read_field_value (fun t => read_ptr_with (read_generic 3 t) t)
               (TStruct [Field "S" TString [("max", "2")]]) (VStruct [VString []]) TString
               [("max", "2")] (-1) (VString []) (reader_at [97; 98; 99])
             = (Ok (VString [97; 98], -1), s') /\ pos s' = 2.
Proof.
  destruct (string_field_max_reached (fun t => read_ptr_with (read_generic 3 t) t)
              (TStruct [Field "S" TString [("max", "2")]]) (VStruct [VString []]) TString
              [("max", "2")] (-1) (VString []) (reader_at [97; 98; 99]) 2 [97; 98] [99])
    as [s' [H Hp]].
  - reflexivity.
  - lia.
  - vm_compute. reflexivity.
  - simpl. lia.
  - reflexivity.
  - not_in.
  - reflexivity.
  - exists s'. split; [exact H|]. rewrite Hp. reflexivity.
Defined.

Lemma length_prefixed_string_witness :
  exists s', struct_field (fun t => read_ptr_with (read_generic 3 t) t)
               [Field "S" TString [("length", "uint8")]] 0
               (Field "S" TString [("length", "uint8")]) [VString []] (reader_at [2; 104; 105; 9])
             = (Ok [VString [104; 105]], s') /\ pos s' = 3.
Proof.
  destruct (length_prefixed_string (fun t => read_ptr_with (read_generic 3 t) t)
              [Field "S" TString [("length", "uint8")]] 0 "S" TString [("length", "uint8")]
              [VString []] (reader_at [2; 104; 105; 9]) 2 [104; 105] [9])
    as [s' [H Hp]]; try reflexivity; try (simpl; lia).
  exists s'. split; [exact H|]. rewrite Hp. reflexivity.
Defined.

Lemma align_padding_bounds_witness : align_seek 0 4 = 4 /\ align_seek 5 4 < 4.
Proof.
  split.
  - apply (proj2 (proj2 (align_padding_bounds 0 4 ltac:(lia) ltac:(lia)))). reflexivity.
  - apply (proj1 (proj2 (align_padding_bounds 5 4 ltac:(lia) ltac:(lia)))). lia.
Defined.

Lemma parse_paths_uppercase_witness : paths_ok (EBin Ge (EPath ["Length"]) (EConst 3)).
Proof. apply (parse_paths_uppercase "Length >= 3"). vm_compute. reflexivity. Defined.

Lemma uint64_length_prefix_signed_witness :
  length_step (TStruct []) (VStruct []) [("length", "uint64")]
    (reader_at [255; 255; 255; 255; 255; 255; 255; 255])
  = (Ok (-1), mkst [255; 255; 255; 255; 255; 255; 255; 255] 8 LittleEndian [EvRead 8]).
Proof.
  rewrite (uint64_length_prefix_signed (TStruct []) (VStruct []) [("length", "uint64")]
             (reader_at [255; 255; 255; 255; 255; 255; 255; 255]) (2 ^ 64 - 1)
             (mkst [255; 255; 255; 255; 255; 255; 255; 255] 8 LittleEndian [EvRead 8])).
  - vm_compute. reflexivity.
  - reflexivity.
  - simpl. lia.
  - bytes_in_range.
  - vm_compute. reflexivity.
Defined.

Lemma signed_reads_reinterpret_witness :
  exists v, Int16 (reader_at [254; 255]) = (Ok v, mkst [254; 255] 2 LittleEndian [EvRead 2]) /\
            - 2 ^ 15 <= v < 2 ^ 15 /\ v mod 2 ^ 16 = 65534.
Proof.
  apply (proj1 (proj2 (signed_reads_reinterpret (reader_at [254; 255])
                         ltac:(simpl; lia) ltac:(bytes_in_range)))).
  vm_compute. reflexivity.
Defined.

Lemma struct_consumes_field_sizes_witness :
  pos (mkst [1; 2; 3; 4; 5] 5 LittleEndian [EvRead 1; EvRead 4])
  = pos (reader_at [1; 2; 3; 4; 5])
    + fields_size [Field "A" (TBasic BUint8) []; Field "B" (TBasic BUint32) []].
Proof.
  apply (struct_consumes_field_sizes [Field "A" (TBasic BUint8) []; Field "B" (TBasic BUint32) []]
           (reader_at [1; 2; 3; 4; 5]) (VStruct [VUint 1; VUint 84148994])).
  - reflexivity.
  - vm_compute. reflexivity.
Defined.

Lemma read_bytes_concat_witness :
  exists d1 d2 s1 s2,
    read_bytes 1 (reader_at [1; 2; 3]) = (Ok d1, s1) /\ read_bytes 2 s1 = (Ok d2, s2) /\
    fst (read_bytes (1 + 2) (reader_at [1; 2; 3])) = Ok (d1 ++ d2)%list /\
    pos (snd (read_bytes (1 + 2) (reader_at [1; 2; 3]))) = pos s2.
Proof.
  exact (read_bytes_concat 1 2 (reader_at [1; 2; 3]) ltac:(lia) ltac:(lia) ltac:(simpl; lia)
           ltac:(simpl; lia)).
Defined.

Lemma byte_elems_read_in_order_witness :
  exists s', ReadInterface (IPtr (TSlice (TBasic BUint8)) (VSlice [VUint 0; VUint 0]))
                           (reader_at [5; 6; 7])
             = (Ok (VSlice [VUint 5; VUint 6]), s').
Proof.
  destruct (proj1 (byte_elems_read_in_order [VUint 0; VUint 0] (reader_at [5; 6; 7])
                     ltac:(simpl; lia) ltac:(simpl; lia))) as [s' [H _]].
  exists s'. exact H.
Defined.

Lemma align_pads_to_multiple_witness : (5 + align_seek 5 4) mod 4 = 0.
Proof. apply (align_pads_to_multiple 5 4 2); [lia|lia|reflexivity]. Defined.

Ltac same_tags :=
  split; [reflexivity|];
  let k := fresh "k" in let Hk := fresh "Hk" in
  intros k Hk; cbn [tag_get];
  repeat match goal with
         | |- context [String.eqb ?a k] =>
             destruct (String.eqb_spec a k); [subst; congruence|]
         end; reflexivity.

Lemma if_true_is_transparent_witness :
  struct_field (fun t => read_ptr_with (read_generic 2 t) t)
    [Field "A" (TBasic BUint8) []; Field "B" (TBasic BUint8) [("if", "A == 7")]] 1
    (Field "B" (TBasic BUint8) [("if", "A == 7")]) [VUint 7; VUint 0] (reader_at [9])
  = struct_field (fun t => read_ptr_with (read_generic 2 t) t)
    [Field "A" (TBasic BUint8) []; Field "B" (TBasic BUint8) [("if", "A == 7")]] 1
    (Field "B" (TBasic BUint8) []) [VUint 7; VUint 0] (reader_at [9]).
Proof.
  apply (if_true_is_transparent _ _ _ _ _ _ _ _ _ (EBin Eq (EPath ["A"]) (EConst 7)) 1).
  - same_tags.
  - reflexivity.
  - reflexivity.
  - discriminate.
Defined.

Lemma skip_seeks_then_reads_witness :
  struct_field (fun t => read_ptr_with (read_generic 2 t) t)
    [Field "A" (TBasic BUint8) [("skip", "2")]] 0
    (Field "A" (TBasic BUint8) [("skip", "2")]) [VUint 0] (reader_at [1; 2; 3])
  = struct_field (fun t => read_ptr_with (read_generic 2 t) t)
    [Field "A" (TBasic BUint8) [("skip", "2")]] 0
    (Field "A" (TBasic BUint8) []) [VUint 0] (mkst [1; 2; 3] 2 LittleEndian [EvSeek 2]).
Proof.
  apply (skip_seeks_then_reads (fun t => read_ptr_with (read_generic 2 t) t)
           [Field "A" (TBasic BUint8) [("skip", "2")]] 0 "A" (TBasic BUint8)
           [("skip", "2")] [] [VUint 0] (reader_at [1; 2; 3]) (EConst 2) 2).
  - same_tags.
  - reflexivity.
  - reflexivity.
  - reflexivity.
  - simpl. lia.
Defined.
